(** * ADC_DMA_FFT: the per-frame pipeline of the spectrum display sketch

    A shallow embedding of [loop] and [rainbowColor] of ADC_DMA_FFT.ino:
    sample scaling, peak tracking, amplitude-to-height mapping, trigger
    detection, trace rendering, waterfall scrolling and colour mapping. *)

From Stdlib Require Import ZArith QArith Qround Qabs Qpower Lqa Lia SpecFloat.
From stdpp Require Import base list list_numbers.

Local Open Scope Z_scope.

(** ** Binary64 arithmetic

    The sketch computes the peak decay and the bar heights in [double].
    A double is modelled by the rational it denotes; every operation is the
    exact operation followed by rounding to 53 significant bits, ties to
    even.  The exponent range is not modelled: over the 32-bit integers and
    the constants of the sketch every value is zero or lies between 2^-7
    and 2^35, far inside the normal range of binary64. *)

Module Binary64.

Local Open Scope Q_scope.

Definition prec : Z := 53.

Definition pow2 (k : Z) : Q := 2 ^ k.

(** [ilog2 x] is the floor of the base-2 logarithm of a positive rational. *)
Definition ilog2 (x : Q) : Z :=
  let k := (Z.log2 (Qnum x) - Z.log2 (Zpos (Qden x)))%Z in
  if Qle_bool (pow2 k) x then k else (k - 1)%Z.

(** Round to the nearest integer, ties to the even one. *)
Definition rne (x : Q) : Z :=
  let f := Qfloor x in
  match Qcompare (x - inject_Z f) (1 # 2) with
  | Lt => f
  | Gt => (f + 1)%Z
  | Eq => if Z.even f then f else (f + 1)%Z
  end.

(** The exponent of the unit in the last place of [x]. *)
Definition ulp_exp (x : Q) : Z := (ilog2 (Qabs x) - (prec - 1))%Z.

(** Rounding of a rational to the nearest binary64 number. *)
Definition fl (x : Q) : Q :=
  let s := ulp_exp x in
  inject_Z (rne (x / pow2 s)) * pow2 s.

Definition fadd (x y : Q) : Q := fl (x + y).
Definition fsub (x y : Q) : Q := fl (x - y).
Definition fmul (x y : Q) : Q := fl (x * y).
Definition fdiv (x y : Q) : Q := fl (x / y).

(** Conversion of an integer to double. *)
Definition of_int (n : Z) : Q := fl (inject_Z n).

(** C conversion of a double to an integer type drops the fraction. *)
Definition trunc (x : Q) : Z :=
  if Qle_bool 0 x then Qfloor x else Qceiling x.

(** A number is representable when it is m * 2^t with |m| < 2^53. *)
Definition representable (x : Q) : Prop :=
  exists m t : Z, (Z.abs m < 2 ^ prec)%Z /\ x == inject_Z m * pow2 t.

End Binary64.

(** ** The sketch *)

Import Binary64.

(** *** Configuration (#define) *)

Definition SAMPLES : Z := 256.
Definition TRACE_SCALE : Z := 7.
Definition FFT_SCALE : Z := 100.
Definition EXP_FILTER : Q := fl (98 # 100).
Definition WIDTH : Z := 256.
Definition HEIGHT : Z := 160.

Definition TFT_BLACK : Z := 0.
Definition TFT_GREEN : Z := 2016.
Definition TFT_WHITE : Z := 65535.

Definition INT_MIN : Z := - 2 ^ 31.
Definition INT_MAX : Z := 2 ^ 31 - 1.

(** *** Machine integers *)

Definition to_uint8 (x : Z) : Z := x mod 2 ^ 8.
Definition to_uint16 (x : Z) : Z := x mod 2 ^ 16.
Definition to_int16 (x : Z) : Z := (x + 2 ^ 15) mod 2 ^ 16 - 2 ^ 15.

(** [(int) d] for a double [d]: the fraction is dropped.  Outside the range
    of [int] the conversion is undefined in C; the values converted here
    stay inside it (see [peak_decay_int_range]). *)
Definition double_to_int (d : Q) : Z := trunc d.

(** [(uint16_t) d] for a double [d]: the fraction is dropped and the low
    16 bits are kept (C leaves values outside [0, 65535] undefined). *)
Definition double_to_uint16 (d : Q) : Z := to_uint16 (trunc d).

(** A checked array read: [None] outside the array. *)
Definition read (buf : list Z) (i : Z) : option Z :=
  if i <? 0 then None else buf !! Z.to_nat i.

(** *** Scaling: lines 146-150 of [loop] *)

(** [sampleBuffer[i]/4 - 512 + 49], stored in an [int16_t]. *)
Definition scale_sample (raw : Z) : Z := to_int16 (Z.quot raw 4 - 512 + 49).

Definition scale_step (sampleBuffer : list Z) (st : list Z * list Z) (i : Z)
  : list Z * list Z :=
  let '(streamBuffer, approxBuffer) := st in
  let streamBuffer :=
    <[Z.to_nat i := scale_sample (sampleBuffer !!! Z.to_nat i)]> streamBuffer in
  let approxBuffer :=
    <[Z.to_nat i := streamBuffer !!! Z.to_nat i]> approxBuffer in
  (streamBuffer, approxBuffer).

Definition scale_samples (sampleBuffer streamBuffer approxBuffer : list Z)
  : list Z * list Z :=
  foldl (scale_step sampleBuffer) (streamBuffer, approxBuffer) (seqZ 0 SAMPLES).

(** *** Pixel width of a frequency band: line 171 *)

Definition pw : Z :=
  double_to_uint16 (fdiv (fmul 4 (of_int WIDTH)) (of_int SAMPLES)).

(** *** [rainbowColor]: lines 253-299 *)

Definition rainbowColor (arg : Z) : Z :=
  let spectrum := to_uint8 arg in
  let spectrum := to_uint8 (spectrum mod 192) in
  let sector := to_uint8 (Z.shiftr spectrum 5) in
  let amplit := to_uint8 (Z.land spectrum 31) in
  let '(red, green, blue) :=
    match sector with
    | 0 => (31, amplit, 0)
    | 1 => (to_uint8 (31 - amplit), 31, 0)
    | 2 => (0, 31, amplit)
    | 3 => (0, to_uint8 (31 - amplit), 31)
    | 4 => (amplit, 0, 31)
    | 5 => (31, 0, to_uint8 (31 - amplit))
    | _ => (0, 0, 0)
    end in
  to_uint16 (Z.lor (Z.lor (Z.shiftl red 11) (Z.shiftl green 6)) blue).

(** *** Peak tracking: lines 181-184 *)

(** The decay filter [peak * EXP_FILTER + approx * (1.0 - EXP_FILTER)],
    computed in double and stored in an [int]. *)
Definition peak_decay (approx peak : Z) : Z :=
  double_to_int
    (fadd (fmul (of_int peak) EXP_FILTER)
          (fmul (of_int approx) (fsub 1 EXP_FILTER))).

(** The value of [peakBuffer[i]] after the update; a rise that is not
    committed leaves it as it was. *)
Definition peak_update (approx peak : Z) : Z :=
  if peak <? approx then
    if Z.quot approx FFT_SCALE <? HEIGHT then approx else peak
  else peak_decay approx peak.

(** *** Amplitude to height: lines 187-188 and 227 *)

(** The double [(1 + (i / 10.0)) * v / divisor]. *)
Definition height_value (i v divisor : Z) : Q :=
  fdiv (fmul (fadd 1 (fdiv (of_int i) 10)) (of_int v)) (of_int divisor).

(** The same, stored in a [uint16_t]. *)
Definition height (i v divisor : Z) : Z :=
  double_to_uint16 (height_value i v divisor).

(** *** Spectrum mode: lines 178-202, with DOT_PEAK *)

Record bar := Bar {
  bar_x : Z;      (* left edge, [pw * i] *)
  bar_hp : Z;     (* peak height after the clamp *)
  bar_hr : Z;     (* amplitude height after the clamp *)
  bar_col : Z     (* colour of the peak dot *)
}.

(** Lines 187-201 for one bin: the heights, their clamps and the colour. *)
Definition spectrum_bar (i approx peak : Z) : bar :=
  let hp := height i peak FFT_SCALE in
  let hr := height i approx FFT_SCALE in
  let hr := if HEIGHT <? hr then HEIGHT else hr in
  let hp := if HEIGHT <? hp then HEIGHT else hp in
  let col := rainbowColor (127 + Z.min hp 96) in
  Bar (pw * i) hp hr col.

Definition spectrum_bin (approxBuffer : list Z) (st : list Z * list bar) (i : Z)
  : list Z * list bar :=
  let '(peakBuffer, bars) := st in
  let approx := approxBuffer !!! Z.to_nat i in
  let peakBuffer :=
    <[Z.to_nat i := peak_update approx (peakBuffer !!! Z.to_nat i)]> peakBuffer in
  (peakBuffer, bars ++ [spectrum_bar i approx (peakBuffer !!! Z.to_nat i)]).

Definition draw_spectrum (approxBuffer peakBuffer : list Z)
  : list Z * list bar :=
  foldl (spectrum_bin approxBuffer) (peakBuffer, []) (seqZ 0 (Z.quot SAMPLES 4)).

(** [peakBuffer] at startup and after a run of frames, each given by the
    content of [approxBuffer] after the transform. *)
Definition peakBuffer_init : list Z := replicate (Z.to_nat SAMPLES) 0.

Definition peaks_after (frames : list (list Z)) : list Z :=
  foldl (fun peakBuffer approxBuffer =>
           fst (draw_spectrum approxBuffer peakBuffer))
        peakBuffer_init frames.

(** *** Trigger: lines 207-212 *)

(** The [while] loop; [None] when a read leaves the array or the fuel
    runs out.  The lookahead [streamBuffer[startSample + 1]] is read only
    when the first two tests of the [&&] chain hold. *)
Fixpoint trigger_loop (fuel : nat) (streamBuffer : list Z) (startSample : Z)
  : option Z :=
  match fuel with
  | O => None
  | S fuel =>
    if startSample <? Z.quot SAMPLES 2 - 1 then
      a ← read streamBuffer startSample;
      rising ← (if (0 <? a) && (a <? 4 * TRACE_SCALE)
                then b ← read streamBuffer (startSample + 1); Some (a <? b)
                else Some false);
      if rising : bool then Some startSample
      else trigger_loop fuel streamBuffer (to_uint16 (startSample + 1))
    else Some startSample
  end.

Definition trigger (streamBuffer : list Z) : option Z :=
  trigger_loop (Z.to_nat SAMPLES) streamBuffer 0.

(** *** Trace: lines 215-219 *)

Record segment := Segment { seg_x0 : Z; seg_y0 : Z; seg_x1 : Z; seg_y1 : Z }.

Definition trace_y (v : Z) : Z := Z.quot HEIGHT 2 - Z.quot v TRACE_SCALE.

(** The [for] loop, giving the lines drawn; [None] when a read leaves the
    array or the fuel runs out. *)
Fixpoint trace_loop (fuel : nat) (streamBuffer : list Z) (x startSample : Z)
    (lines : list segment) : option (list segment) :=
  match fuel with
  | O => None
  | S fuel =>
    if x <? WIDTH then
      a ← read streamBuffer startSample;
      b ← read streamBuffer (startSample + 1);
      let lines := lines ++ [Segment x (trace_y a) (x + pw) (trace_y b)] in
      let startSample := to_uint16 (startSample + 1) in
      if SAMPLES - 1 <=? startSample then Some lines
      else trace_loop fuel streamBuffer (to_uint16 (x + pw)) startSample lines
    else Some lines
  end.

Definition draw_trace (streamBuffer : list Z) (startSample : Z)
  : option (list segment) :=
  trace_loop (S (Z.to_nat WIDTH)) streamBuffer 0 startSample [].

(** *** One pass of [loop] with the default options

    DRAW_SPECTRUM, DOT_PEAK and DRAW_TRACE.  The transform is the sketch's
    other tab and is taken as a parameter: it rewrites [approxBuffer] in
    place. *)

Definition SAMPLING_FREQUENCY : Z := 14000.

Record buffers := Buffers {
  sampleBuffer : list Z;
  streamBuffer : list Z;
  approxBuffer : list Z;
  peakBuffer : list Z
}.

Record drawing := Drawing { bars : list bar; trace : list segment }.

Section Loop.

Variable Approx_FFT : list Z -> Z -> Z -> list Z.

Definition loop (g : buffers) : option (buffers * drawing) :=
  let '(stream, approx) :=
    scale_samples (sampleBuffer g) (streamBuffer g) (approxBuffer g) in
  let approx := Approx_FFT approx SAMPLES SAMPLING_FREQUENCY in
  let '(peak, bars) := draw_spectrum approx (peakBuffer g) in
  startSample ← trigger stream;
  lines ← draw_trace stream startSample;
  Some (Buffers (sampleBuffer g) stream approx peak, Drawing bars lines).

End Loop.

(** *** Waterfall: lines 224-231 *)

(** Modelled from the spec: [TFT_eSprite::scroll(0, 1)] of the TFT_eSPI
    library, which is not part of the sketch.  The sprite is a list of
    rows, row 0 on top; scrolling down by one makes row 0 row 1 and drops
    the last row.  The vacated top row is filled with [fill]. *)
Definition scroll_down (fill : Z) (spr : list (list Z)) : list (list Z) :=
  match spr with
  | [] => []
  | row :: _ => replicate (length row) fill :: take (length spr - 1) spr
  end.

(** Modelled from the spec: [TFT_eSprite::drawFastHLine(x, y, w, col)] of
    the TFT_eSPI library: the pixels [x .. x + w - 1] of row [y] take the
    colour [col]. *)
Definition drawFastHLine (spr : list (list Z)) (x y w col : Z)
  : list (list Z) :=
  alter (imap (fun c old =>
                 if (x <=? Z.of_nat c) && (Z.of_nat c <? x + w)
                 then col else old))
        (Z.to_nat y) spr.

Definition waterfall_height (i v : Z) : Z :=
  let hr := height i v (Z.quot FFT_SCALE 2) in
  if 127 <? hr then 127 else hr.

Definition waterfall_bin (approxBuffer : list Z) (spr : list (list Z)) (i : Z)
  : list (list Z) :=
  let hr := waterfall_height i (approxBuffer !!! Z.to_nat i) in
  let col := rainbowColor (128 - hr) in
  drawFastHLine spr (pw * i) 0 pw col.

Definition draw_waterfall (approxBuffer : list Z) (spr : list (list Z))
  : list (list Z) :=
  foldl (waterfall_bin approxBuffer) (scroll_down TFT_BLACK spr)
        (seqZ 0 (Z.quot SAMPLES 4)).

(** The sprite as [createSprite] leaves it: all black. *)
Definition sprite_init : list (list Z) :=
  replicate (Z.to_nat HEIGHT) (replicate (Z.to_nat WIDTH) TFT_BLACK).

(** ** The properties under study, as the specification words them *)

(** The sample at [j] lies in the small positive band and the next one is
    higher. *)
Definition rising_at (streamBuffer : list Z) (j : Z) : Prop :=
  exists a b,
    read streamBuffer j = Some a /\ read streamBuffer (j + 1) = Some b /\
    0 < a /\ a < 4 * TRACE_SCALE /\ b > a.

(** The line drawn for the [k]-th step of a trace that starts at column
    [x] with sample [startSample]. *)
Definition trace_segment (streamBuffer : list Z) (x startSample k : Z)
  : segment :=
  Segment (x + pw * k)
          (trace_y (streamBuffer !!! Z.to_nat (startSample + k)))
          (x + pw * k + pw)
          (trace_y (streamBuffer !!! Z.to_nat (startSample + k + 1))).

(** C1 as stated: after the update the peak is never below the bin. *)
Definition peak_never_below_bin : Prop :=
  forall approxBuffer peakBuffer i cur new,
    length approxBuffer = Z.to_nat SAMPLES ->
    length peakBuffer = Z.to_nat SAMPLES ->
    0 <= i < Z.quot SAMPLES 4 ->
    read approxBuffer i = Some cur ->
    read (draw_spectrum approxBuffer peakBuffer).1 i = Some new ->
    cur <= new.


(** C6 as stated: every rendered height lies in [0, HEIGHT] and a height
    whose unclamped value exceeds HEIGHT is rendered as HEIGHT, in spectrum
    mode (amplitude and peak) and in waterfall mode. *)
Definition heights_clamped_to_HEIGHT : Prop :=
  forall i approx peak,
    0 <= i < Z.quot SAMPLES 4 -> 0 <= approx -> 0 <= peak ->
    let b := spectrum_bar i approx peak in
    (0 <= bar_hr b <= HEIGHT /\
     (HEIGHT < height i approx FFT_SCALE -> bar_hr b = HEIGHT)) /\
    (0 <= bar_hp b <= HEIGHT /\
     (HEIGHT < height i peak FFT_SCALE -> bar_hp b = HEIGHT)) /\
    (0 <= waterfall_height i approx <= HEIGHT /\
     (HEIGHT < height i approx (Z.quot FFT_SCALE 2) ->
      waterfall_height i approx = HEIGHT)).


(** ** The IEEE 754 reference of the Standard Library

    [SpecFloat] gives binary64 as [prec = 53], [emax = 1024].  The
    expressions of the sketch are written a second time over it, to compare
    the model above with it on sample inputs. *)

Definition SF2Q (f : spec_float) : Q :=
  match f with
  | S754_finite s m e => (inject_Z (if s then Zneg m else Zpos m) * pow2 e)%Q
  | _ => 0%Q
  end.

Definition SF_of_Z (n : Z) : spec_float := binary_normalize 53 1024 n 0 false.

Definition SF_EXP_FILTER : spec_float :=
  SFdiv 53 1024 (SF_of_Z 98) (SF_of_Z 100).

Definition SF_decay (approx peak : Z) : spec_float :=
  SFadd 53 1024
    (SFmul 53 1024 (SF_of_Z peak) SF_EXP_FILTER)
    (SFmul 53 1024 (SF_of_Z approx)
       (SFsub 53 1024 (SF_of_Z 1) SF_EXP_FILTER)).

Definition SF_height (i v divisor : Z) : spec_float :=
  SFdiv 53 1024
    (SFmul 53 1024
       (SFadd 53 1024 (SF_of_Z 1) (SFdiv 53 1024 (SF_of_Z i) (SF_of_Z 10)))
       (SF_of_Z v))
    (SF_of_Z divisor).

Definition decay_samples : list (Z * Z) :=
  [(3, 3); (12345, 15999); (0, 1); (7, 2147483647); (700, 900);
   (15999, 15999); (-5, -3); (-2147483648, -1)].

Definition height_samples : list (Z * Z * Z) :=
  [(0, 100, 100); (3, 1000, 100); (63, 15999, 100); (7, 12345, 50);
   (29, 777, 100); (41, 65535, 50); (10, 3, 100); (0, 10000, 50)].


(** ** Further parts of the sketch *)

(** *** The rectangles of spectrum mode: lines 199 and 201

    [fillRect (x, y, w, h, colour)] for the peak dot and for the amplitude
    bar of one bin. *)

Record rect := Rect {
  rect_x : Z; rect_y : Z; rect_w : Z; rect_h : Z; rect_col : Z
}.

Definition dot_rect (b : bar) : rect :=
  Rect (bar_x b) (HEIGHT - bar_hp b) (pw - 1) 2 (bar_col b).

Definition amplitude_rect (b : bar) : rect :=
  Rect (bar_x b) (HEIGHT - bar_hr b) (pw - 1) (bar_hr b) TFT_WHITE.

(** *** The colour channels of a 16-bit colour as [rainbowColor] packs them:
    line 298 *)

Definition red_of (colour : Z) : Z := Z.shiftr colour 11.
Definition green_of (colour : Z) : Z := Z.land (Z.shiftr colour 6) 31.
Definition blue_of (colour : Z) : Z := Z.land colour 31.

(** *** The frame counter: lines 238-247

    [counter] is a [uint16_t]; every [interval] frames the rate is computed
    from the time since the last refresh and the timer restarts.  The step
    gives the new counter, the new [startMillis] and, at a refresh, the
    elapsed time [millisNow - startMillis] the rate is computed from.  The
    times are integers without the 32-bit range of [long]; the text drawn
    is left out. *)

Definition interval : Z := 100.

Record fps_state := FpsState { counter : Z; startMillis : Z }.

Definition fps_step (millisNow : Z) (st : fps_state) : fps_state * option Z :=
  let counter := to_uint16 (counter st + 1) in
  if Z.rem counter interval =? 0
  then (FpsState counter millisNow, Some (millisNow - startMillis st))
  else (FpsState counter (startMillis st), None).

(** The state after the frames whose [millis()] readings are [clock], oldest
    first, and the refreshes made, as pairs of frame number and elapsed
    time. *)
Fixpoint fps_run (clock : list Z) (frame : Z) (st : fps_state)
  : fps_state * list (Z * Z) :=
  match clock with
  | [] => (st, [])
  | millisNow :: clock =>
    let '(st, refresh) := fps_step millisNow st in
    let '(st', log) := fps_run clock (frame + 1) st in
    (st', match refresh with
          | Some elapsed => (frame, elapsed) :: log
          | None => log
          end)
  end.

(** *** A run of waterfall frames *)

Definition waterfall_after (frames : list (list Z)) : list (list Z) :=
  foldl (fun spr approxBuffer => draw_waterfall approxBuffer spr)
        sprite_init frames.

(** The colour that waterfall mode gives to column [c] for the bins of
    [approxBuffer]. *)
Definition waterfall_colour (approxBuffer : list Z) (c : nat) : Z :=
  let i := Z.quot (Z.of_nat c) pw in
  rainbowColor (128 - waterfall_height i (approxBuffer !!! Z.to_nat i)).

(** The top row that waterfall mode draws for [approxBuffer], and the row
    of a sprite that was never drawn on. *)
Definition waterfall_row (approxBuffer : list Z) : list Z :=
  waterfall_colour approxBuffer <$> seq 0 (Z.to_nat WIDTH).

Definition black_row : list Z := replicate (Z.to_nat WIDTH) TFT_BLACK.

(** The number of frames from a counter value to the next refresh of the
    rate. *)
Definition frames_to_refresh (counter : Z) : Z :=
  if counter <? 2 ^ 16 - 2 ^ 16 mod interval
  then interval - counter mod interval
  else 2 ^ 16 - counter.

(** *** A run of spectrum frames from any peak buffer *)

Definition peaks_from (peakBuffer : list Z) (frames : list (list Z)) : list Z :=
  foldl (fun peakBuffer approxBuffer =>
           (draw_spectrum approxBuffer peakBuffer).1)
        peakBuffer frames.

(** The values one bin takes over a run of frames, and the peak they lead
    to from [prev]. *)
Definition bin_peak (i : nat) (frames : list (list Z)) (prev : Z) : Z :=
  foldl (fun peak approxBuffer => peak_update (approxBuffer !!! i) peak)
        prev frames.

(** *** Reference descriptions of the colours, for the statements below *)

(** The channels (red, green, blue) of the hue wheel at position
    [spectrum] in [0, 191]. *)
Definition hue_channels (spectrum : Z) : Z * Z * Z :=
  let amplit := spectrum mod 32 in
  match spectrum / 32 with
  | 0 => (31, amplit, 0)
  | 1 => (31 - amplit, 31, 0)
  | 2 => (0, 31, amplit)
  | 3 => (0, 31 - amplit, 31)
  | 4 => (amplit, 0, 31)
  | _ => (31, 0, 31 - amplit)
  end.

Definition channels_of (colour : Z) : Z * Z * Z :=
  (red_of colour, green_of colour, blue_of colour).

(** The sum of the channel differences of two colours. *)
Definition colour_distance (c1 c2 : Z) : Z :=
  Z.abs (red_of c1 - red_of c2) + Z.abs (green_of c1 - green_of c2)
  + Z.abs (blue_of c1 - blue_of c2).

(** The colour of the peak dot for a clamped peak height [hp]. *)
Definition peak_dot_channels (hp : Z) : Z * Z * Z :=
  if hp =? 0 then (0, 0, 31)
  else if hp <=? 32 then (hp - 1, 0, 31)
  else if hp <=? 64 then (31, 0, 64 - hp)
  else if hp <=? 96 then (31, hp - 65, 0)
  else (31, 31, 0).

(** The colour of a waterfall pixel for a clamped height [hr]. *)
Definition waterfall_channels (hr : Z) : Z * Z * Z :=
  if hr =? 0 then (0, 0, 31)
  else if hr <=? 32 then (0, hr - 1, 31)
  else if hr <=? 64 then (0, 31, 64 - hr)
  else if hr <=? 96 then (hr - 65, 31, 0)
  else (31, 128 - hr, 0).

(** The check that [rainbowColor] packs the channels of the hue wheel at
    [x mod 192] and that the hue is saturated, for one argument. *)
Definition channels_ok (x : Z) : bool :=
  let colour := rainbowColor x in
  let '(r, g, b) := hue_channels (x mod 192) in
  (red_of colour =? r) && (green_of colour =? g) && (blue_of colour =? b)
  && (colour =? r * 2 ^ 11 + g * 2 ^ 6 + b)
  && (Z.max r (Z.max g b) =? 31) && (Z.min r (Z.min g b) =? 0).
(** * Facts about the binary64 model *)

Module Binary64Facts.
Import Binary64.
Local Open Scope Q_scope.

(** *** Powers of two *)

Lemma pow2_pos k : 0 < pow2 k.
Proof. apply Qpower_0_lt. reflexivity. Qed.

Lemma pow2_add a b : pow2 (a + b) == pow2 a * pow2 b.
Proof. apply Qpower_plus. discriminate. Qed.

Lemma pow2_le a b : (a <= b)%Z -> pow2 a <= pow2 b.
Proof. intro H. apply Qpower_le_compat_l; [exact H | discriminate]. Qed.

Lemma pow2_lt a b : (a < b)%Z -> pow2 a < pow2 b.
Proof. intro H. apply Qpower_lt_compat_l; [exact H | reflexivity]. Qed.

Lemma pow2_lt_inv a b : pow2 a < pow2 b -> (a < b)%Z.
Proof. intro H. apply (Qpower_lt_compat_l_inv 2); [exact H | reflexivity]. Qed.

Lemma pow2_inject k : (0 <= k)%Z -> pow2 k == inject_Z (2 ^ k).
Proof. intro H. unfold pow2. symmetry. apply (Zpower_Qpower 2 k H). Qed.

Lemma pow2_sub a b : pow2 (a - b) == pow2 a / pow2 b.
Proof.
  unfold Z.sub. rewrite pow2_add. unfold pow2 at 2. rewrite Qpower_opp.
  reflexivity.
Qed.

Lemma div_pow2 x s : x / pow2 s * pow2 s == x.
Proof.
  field. intro H. pose proof (pow2_pos s) as P. rewrite H in P.
  discriminate.
Qed.

Lemma div_pow2_neg z k : z / pow2 (- k) == z * pow2 k.
Proof. unfold Qdiv, pow2. rewrite Qpower_opp, Qinv_involutive. reflexivity. Qed.

(** *** The binade of a positive rational *)

Lemma Qmake_mult_den x : x * inject_Z (Zpos (Qden x)) == inject_Z (Qnum x).
Proof.
  destruct x as [n d]. simpl. rewrite (Qmake_Qdiv n d). field. discriminate.
Qed.

Lemma Qnum_pos x : 0 < x -> (0 < Qnum x)%Z.
Proof. destruct x as [n d]. unfold Qlt. simpl. lia. Qed.

Lemma log2_bounds n :
  (0 < n)%Z -> pow2 (Z.log2 n) <= inject_Z n /\ inject_Z n < pow2 (Z.log2 n + 1).
Proof.
  intro Hn. destruct (Z.log2_spec n Hn) as [Hl Hu].
  pose proof (Z.log2_nonneg n) as H0.
  rewrite !pow2_inject by lia. rewrite <- Zle_Qle, <- Zlt_Qlt.
  replace (Z.log2 n + 1)%Z with (Z.succ (Z.log2 n)) by lia. split; assumption.
Qed.

Lemma ilog2_spec x :
  0 < x -> pow2 (ilog2 x) <= x /\ x < pow2 (ilog2 x + 1).
Proof.
  intro Hx. unfold ilog2.
  set (n := Qnum x). set (d := Zpos (Qden x)).
  set (k := (Z.log2 n - Z.log2 d)%Z).
  assert (Hn : (0 < n)%Z) by (apply Qnum_pos; exact Hx).
  assert (Hd : (0 < d)%Z) by reflexivity.
  destruct (log2_bounds n Hn) as [Hn1 Hn2].
  destruct (log2_bounds d Hd) as [Hd1 Hd2].
  pose proof (Qmake_mult_den x) as E. fold n d in E.
  pose proof (pow2_pos (Z.log2 d)) as Pd.
  pose proof (pow2_pos (Z.log2 n)) as Pn.
  assert (Eu : pow2 (k + 1) * pow2 (Z.log2 d) == pow2 (Z.log2 n + 1)).
  { rewrite <- pow2_add. unfold k.
    replace (Z.log2 n - Z.log2 d + 1 + Z.log2 d)%Z with (Z.log2 n + 1)%Z by lia.
    reflexivity. }
  assert (El : pow2 (k - 1) * pow2 (Z.log2 d + 1) == pow2 (Z.log2 n)).
  { rewrite <- pow2_add. unfold k.
    replace (Z.log2 n - Z.log2 d - 1 + (Z.log2 d + 1))%Z with (Z.log2 n) by lia.
    reflexivity. }
  assert (Hup : x < pow2 (k + 1)).
  { apply (Qmult_lt_r _ _ (pow2 (Z.log2 d)) Pd). rewrite Eu.
    apply Qle_lt_trans with (inject_Z n); [| exact Hn2].
    rewrite <- E. apply Qmult_le_l; assumption. }
  assert (Hlo : pow2 (k - 1) < x).
  { apply (Qmult_lt_r _ _ (pow2 (Z.log2 d + 1)) (pow2_pos _)). rewrite El.
    apply Qle_lt_trans with (inject_Z n); [exact Hn1 |].
    rewrite <- E. apply Qmult_lt_l; assumption. }
  destruct (Qle_bool (pow2 k) x) eqn:B.
  - apply Qle_bool_iff in B. split; assumption.
  - split; [apply Qlt_le_weak; exact Hlo |].
    replace (k - 1 + 1)%Z with k by lia.
    apply Qnot_le_lt. intro C. apply Qle_bool_iff in C. congruence.
Qed.

Lemma ilog2_unique x e :
  pow2 e <= x -> x < pow2 (e + 1) -> ilog2 x = e.
Proof.
  intros Hl Hu.
  assert (Hx : 0 < x) by (eapply Qlt_le_trans; [apply pow2_pos | exact Hl]).
  destruct (ilog2_spec x Hx) as [Sl Su].
  assert (e < ilog2 x + 1)%Z
    by (apply pow2_lt_inv; eapply Qle_lt_trans; eassumption).
  assert (ilog2 x < e + 1)%Z
    by (apply pow2_lt_inv; eapply Qle_lt_trans; eassumption).
  lia.
Qed.

Lemma ilog2_le x y : 0 < x -> x <= y -> (ilog2 x <= ilog2 y)%Z.
Proof.
  intros Hx Hxy.
  assert (Hy : 0 < y) by (eapply Qlt_le_trans; eassumption).
  destruct (ilog2_spec x Hx) as [Sl _]. destruct (ilog2_spec y Hy) as [_ Su].
  assert (ilog2 x < ilog2 y + 1)%Z; [| lia].
  apply pow2_lt_inv. eapply Qle_lt_trans; [exact Sl |].
  eapply Qle_lt_trans; eassumption.
Qed.

(** *** Rounding to an integer *)

Ltac compare_facts :=
  repeat match goal with
  | H : Qcompare _ _ = Eq |- _ => apply Qeq_alt in H
  | H : Qcompare _ _ = Lt |- _ => apply Qlt_alt in H
  | H : Qcompare _ _ = Gt |- _ => apply Qgt_alt in H
  end.

Lemma rne_bounds x : (Qfloor x <= rne x <= Qfloor x + 1)%Z.
Proof.
  unfold rne. destruct (Qcompare _ _); try destruct (Z.even _); lia.
Qed.

Lemma rne_Z z : rne (inject_Z z) = z.
Proof.
  unfold rne. rewrite Qfloor_Z.
  assert (E : inject_Z z - inject_Z z == 0) by ring.
  rewrite E. reflexivity.
Qed.

Lemma rne_mono x y : x <= y -> (rne x <= rne y)%Z.
Proof.
  intro H. pose proof (Qfloor_resp_le x y H) as F.
  pose proof (rne_bounds x) as Bx. pose proof (rne_bounds y) as By.
  destruct (Z.eq_dec (Qfloor x) (Qfloor y)) as [E | NE]; [| lia].
  unfold rne in *. rewrite <- E in *. set (f := Qfloor x) in *.
  destruct (Qcompare (x - inject_Z f) (1 # 2)) eqn:Cx;
    destruct (Qcompare (y - inject_Z f) (1 # 2)) eqn:Cy;
    try destruct (Z.even f); try lia; compare_facts; exfalso; lra.
Qed.

Lemma rne_ext x y : x == y -> rne x = rne y.
Proof.
  intro E. apply Z.le_antisymm; apply rne_mono; rewrite E; apply Qle_refl.
Qed.

(** *** Rounding to binary64 *)

Lemma ulp_exp_pos x : 0 < x -> ulp_exp x = (ilog2 x - (prec - 1))%Z.
Proof.
  intro Hx. unfold ulp_exp. f_equal.
  destruct (ilog2_spec x Hx) as [Sl Su].
  apply ilog2_unique; rewrite Qabs_pos by (apply Qlt_le_weak; exact Hx);
    assumption.
Qed.

Lemma ulp_exp_neg x : x < 0 -> ulp_exp x = (ilog2 (- x) - (prec - 1))%Z.
Proof.
  intro Hx. unfold ulp_exp. f_equal.
  assert (Hx' : 0 < - x) by lra.
  destruct (ilog2_spec (- x) Hx') as [Sl Su].
  apply ilog2_unique; rewrite Qabs_neg by (apply Qlt_le_weak; exact Hx);
    assumption.
Qed.

Lemma scaled_bounds x e :
  pow2 e <= x -> x < pow2 (e + 1) ->
  pow2 (prec - 1) <= x / pow2 (e - (prec - 1)) /\
  x / pow2 (e - (prec - 1)) < pow2 prec.
Proof.
  intros Hl Hu. set (s := (e - (prec - 1))%Z).
  pose proof (pow2_pos s) as Ps.
  assert (E1 : pow2 (prec - 1) * pow2 s == pow2 e).
  { rewrite <- pow2_add. unfold s.
    replace (prec - 1 + (e - (prec - 1)))%Z with e by lia. reflexivity. }
  assert (E2 : pow2 prec * pow2 s == pow2 (e + 1)).
  { rewrite <- pow2_add. unfold s.
    replace (prec + (e - (prec - 1)))%Z with (e + 1)%Z by lia. reflexivity. }
  split.
  - apply Qle_shift_div_l; [exact Ps |]. rewrite E1. exact Hl.
  - apply Qlt_shift_div_r; [exact Ps |]. rewrite E2. exact Hu.
Qed.

Lemma fl_pos_bounds x :
  0 < x -> pow2 (ilog2 x) <= fl x /\ fl x <= pow2 (ilog2 x + 1).
Proof.
  intro Hx. destruct (ilog2_spec x Hx) as [Sl Su].
  destruct (scaled_bounds x (ilog2 x) Sl Su) as [Bl Bu].
  unfold fl. rewrite (ulp_exp_pos x Hx).
  set (s := (ilog2 x - (prec - 1))%Z) in *.
  pose proof (pow2_pos s) as Ps.
  assert (E1 : pow2 (ilog2 x) == inject_Z (2 ^ (prec - 1)) * pow2 s).
  { rewrite <- pow2_inject by (unfold prec; lia). rewrite <- pow2_add.
    unfold s. replace (prec - 1 + (ilog2 x - (prec - 1)))%Z with (ilog2 x)
      by lia. reflexivity. }
  assert (E2 : pow2 (ilog2 x + 1) == inject_Z (2 ^ prec) * pow2 s).
  { rewrite <- pow2_inject by (unfold prec; lia). rewrite <- pow2_add.
    unfold s. replace (prec + (ilog2 x - (prec - 1)))%Z with (ilog2 x + 1)%Z
      by lia. reflexivity. }
  rewrite E1, E2. split; apply Qmult_le_compat_r; try (apply Qlt_le_weak; exact Ps);
    rewrite <- Zle_Qle.
  - rewrite <- (rne_Z (2 ^ (prec - 1))). apply rne_mono.
    rewrite <- pow2_inject by (unfold prec; lia). exact Bl.
  - rewrite <- (rne_Z (2 ^ prec)). apply rne_mono.
    rewrite <- pow2_inject by (unfold prec; lia). apply Qlt_le_weak. exact Bu.
Qed.

Lemma fl_neg_bounds x :
  x < 0 -> - pow2 (ilog2 (- x) + 1) <= fl x /\ fl x <= - pow2 (ilog2 (- x)).
Proof.
  intro Hx. assert (Hx' : 0 < - x) by lra.
  destruct (ilog2_spec (- x) Hx') as [Sl Su].
  destruct (scaled_bounds (- x) (ilog2 (- x)) Sl Su) as [Bl Bu].
  unfold fl. rewrite (ulp_exp_neg x Hx).
  set (e := ilog2 (- x)) in *. set (s := (e - (prec - 1))%Z) in *.
  pose proof (pow2_pos s) as Ps.
  assert (E1 : - pow2 e == inject_Z (- 2 ^ (prec - 1)) * pow2 s).
  { rewrite inject_Z_opp, <- pow2_inject by (unfold prec; lia).
    setoid_replace (- pow2 (prec - 1) * pow2 s)
      with (- (pow2 (prec - 1) * pow2 s)) using relation Qeq by ring.
    rewrite <- pow2_add. unfold s.
    replace (prec - 1 + (e - (prec - 1)))%Z with e by lia. reflexivity. }
  assert (E2 : - pow2 (e + 1) == inject_Z (- 2 ^ prec) * pow2 s).
  { rewrite inject_Z_opp, <- pow2_inject by (unfold prec; lia).
    setoid_replace (- pow2 prec * pow2 s) with (- (pow2 prec * pow2 s))
      using relation Qeq by ring.
    rewrite <- pow2_add. unfold s.
    replace (prec + (e - (prec - 1)))%Z with (e + 1)%Z by lia. reflexivity. }
  assert (D : x / pow2 s == - (- x / pow2 s)).
  { field. intro H. rewrite H in Ps. discriminate. }
  rewrite E1, E2. split; apply Qmult_le_compat_r; try (apply Qlt_le_weak; exact Ps);
    rewrite <- Zle_Qle.
  - rewrite <- (rne_Z (- 2 ^ prec)). apply rne_mono.
    rewrite inject_Z_opp, <- pow2_inject by (unfold prec; lia). lra.
  - rewrite <- (rne_Z (- 2 ^ (prec - 1))). apply rne_mono.
    rewrite inject_Z_opp, <- pow2_inject by (unfold prec; lia). lra.
Qed.

Lemma fl_0 x : x == 0 -> fl x == 0.
Proof.
  intro E. unfold fl. 
  assert (Z0 : x / pow2 (ulp_exp x) == inject_Z 0).
  { generalize (pow2 (ulp_exp x)). intro c. rewrite E. apply Qmult_0_l. }
  rewrite (rne_ext _ _ Z0), rne_Z. apply Qmult_0_l.
Qed.

Theorem fl_mono x y : x <= y -> fl x <= fl y.
Proof.
  intro H.
  destruct (Qlt_le_dec 0 x) as [Px | Nx].
  - (* both positive *)
    assert (Py : 0 < y) by lra.
    pose proof (ilog2_le x y Px H) as L.
    destruct (Z.eq_dec (ilog2 x) (ilog2 y)) as [E | NE].
    + unfold fl. rewrite (ulp_exp_pos x Px), (ulp_exp_pos y Py), E.
      set (s := (ilog2 y - (prec - 1))%Z). pose proof (pow2_pos s) as Ps.
      apply Qmult_le_compat_r; [| lra]. rewrite <- Zle_Qle. apply rne_mono.
      apply Qmult_le_compat_r; [exact H |].
      apply Qlt_le_weak, Qinv_lt_0_compat, Ps.
    + destruct (fl_pos_bounds x Px) as [_ Ux].
      destruct (fl_pos_bounds y Py) as [Ly _].
      assert (pow2 (ilog2 x + 1) <= pow2 (ilog2 y)) by (apply pow2_le; lia).
      lra.
  - destruct (Qlt_le_dec y 0) as [Ny | Py].
    + (* both negative *)
      assert (Nx' : x < 0) by lra.
      assert (L : (ilog2 (- y) <= ilog2 (- x))%Z) by (apply ilog2_le; lra).
      destruct (Z.eq_dec (ilog2 (- y)) (ilog2 (- x))) as [E | NE].
      * unfold fl. rewrite (ulp_exp_neg x Nx'), (ulp_exp_neg y Ny), E.
        set (s := (ilog2 (- x) - (prec - 1))%Z). pose proof (pow2_pos s) as Ps.
        apply Qmult_le_compat_r; [| lra]. rewrite <- Zle_Qle. apply rne_mono.
        apply Qmult_le_compat_r; [exact H |].
        apply Qlt_le_weak, Qinv_lt_0_compat, Ps.
      * destruct (fl_neg_bounds x Nx') as [_ Ux].
        destruct (fl_neg_bounds y Ny) as [Ly _].
        assert (pow2 (ilog2 (- y) + 1) <= pow2 (ilog2 (- x)))
          by (apply pow2_le; lia).
        lra.
    + (* zero or opposite signs *)
      assert (Fx : fl x <= 0).
      { destruct (Qeq_dec x 0) as [E | NE]; [rewrite (fl_0 x E); lra |].
        assert (Nx' : x < 0) by (apply Qle_lteq in Nx; tauto).
        destruct (fl_neg_bounds x Nx') as [_ U].
        pose proof (pow2_pos (ilog2 (- x))). lra. }
      assert (Fy : 0 <= fl y).
      { destruct (Qeq_dec y 0) as [E | NE]; [rewrite (fl_0 y E); lra |].
        assert (Py' : 0 < y).
        { apply Qle_lteq in Py. destruct Py as [|E]; [assumption |].
          exfalso. apply NE. symmetry. exact E. }
        destruct (fl_pos_bounds y Py') as [Lb _].
        pose proof (pow2_pos (ilog2 y)). lra. }
      lra.
Qed.

Lemma fl_ext x y : x == y -> fl x == fl y.
Proof.
  intro E. apply Qle_antisym; apply fl_mono; rewrite E; apply Qle_refl.
Qed.

#[export] Instance fl_proper : Proper (Qeq ==> Qeq) fl.
Proof. intros x y E. apply fl_ext, E. Qed.

(** A representable number is its own rounding. *)
Lemma ulp_exp_repr x m t :
  ~ x == 0 -> (Z.abs m < 2 ^ prec)%Z -> x == inject_Z m * pow2 t ->
  (ulp_exp x <= t)%Z.
Proof.
  intros NZ Hm E. pose proof (pow2_pos t) as Pt.
  assert (B : inject_Z (Z.abs m) < pow2 prec).
  { rewrite pow2_inject by (unfold prec; lia). rewrite <- Zlt_Qlt. exact Hm. }
  assert (A : forall a, 0 < a -> a <= inject_Z (Z.abs m) * pow2 t ->
                        (ilog2 a - (prec - 1) <= t)%Z).
  { intros a Ha Le. destruct (ilog2_spec a Ha) as [Sl _].
    assert (pow2 (ilog2 a) < pow2 (prec + t)); [| apply pow2_lt_inv in H; lia].
    rewrite pow2_add. eapply Qle_lt_trans; [exact Sl |].
    eapply Qle_lt_trans; [exact Le |].
    apply Qmult_lt_compat_r; assumption. }
  destruct (Qlt_le_dec 0 x) as [Px | Nx].
  - rewrite (ulp_exp_pos x Px). apply A; [exact Px |]. rewrite E.
    apply Qmult_le_compat_r; [| lra]. rewrite <- Zle_Qle. lia.
  - assert (Nx' : x < 0).
    { apply Qle_lteq in Nx. destruct Nx; [assumption | contradiction]. }
    rewrite (ulp_exp_neg x Nx'). apply A; [lra |]. rewrite E.
    setoid_replace (- (inject_Z m * pow2 t)) with (inject_Z (- m) * pow2 t)
      using relation Qeq by (rewrite inject_Z_opp; ring).
    apply Qmult_le_compat_r; [| lra]. rewrite <- Zle_Qle. lia.
Qed.

Theorem fl_exact x : representable x -> fl x == x.
Proof.
  intros (m & t & Hm & E).
  destruct (Qeq_dec x 0) as [Z0 | NZ]; [rewrite (fl_0 x Z0), Z0; reflexivity |].
  pose proof (ulp_exp_repr x m t NZ Hm E) as L.
  unfold fl. set (s := ulp_exp x) in *. pose proof (pow2_pos s) as Ps.
  assert (D : x / pow2 s == inject_Z (m * 2 ^ (t - s))).
  { rewrite inject_Z_mult, <- pow2_inject by lia. rewrite pow2_sub, E.
    field. intro H. rewrite H in Ps. discriminate. }
  rewrite (rne_ext _ _ D), rne_Z, <- D. apply div_pow2.
Qed.

Lemma representable_int n : (Z.abs n < 2 ^ prec)%Z -> representable (inject_Z n).
Proof.
  intro H. exists n, 0%Z. split; [exact H |]. unfold pow2. simpl. ring.
Qed.

Lemma fl_le_repr x r : x <= r -> representable r -> fl x <= r.
Proof. intros H R. rewrite <- (fl_exact r R). apply fl_mono, H. Qed.

Lemma fl_ge_repr x r : r <= x -> representable r -> r <= fl x.
Proof. intros H R. rewrite <- (fl_exact r R). apply fl_mono, H. Qed.



(** *** Truncation *)

Lemma trunc_Z z : trunc (inject_Z z) = z.
Proof.
  unfold trunc. destruct (Qle_bool 0 (inject_Z z));
    [apply Qfloor_Z | apply Qceiling_Z].
Qed.

Lemma trunc_mono x y : x <= y -> (trunc x <= trunc y)%Z.
Proof.
  intro H. unfold trunc.
  destruct (Qle_bool 0 x) eqn:Bx; destruct (Qle_bool 0 y) eqn:By.
  - apply Qfloor_resp_le, H.
  - apply Qle_bool_iff in Bx.
    assert (0 <= y) by lra. apply Qle_bool_iff in H0. congruence.
  - assert (Nx : x <= 0).
    { apply Qlt_le_weak, Qnot_le_lt. intro C. apply Qle_bool_iff in C.
      congruence. }
    apply Qle_bool_iff in By.
    pose proof (Qceiling_resp_le x 0 Nx) as C.
    pose proof (Qfloor_resp_le 0 y By) as F.
    change (Qceiling 0) with 0%Z in C. change (Qfloor 0) with 0%Z in F. lia.
  - apply Qceiling_resp_le, H.
Qed.

Lemma trunc_ext x y : x == y -> trunc x = trunc y.
Proof.
  intro E. apply Z.le_antisymm; apply trunc_mono; rewrite E; apply Qle_refl.
Qed.

Lemma trunc_nonneg_lt x p : (0 <= p)%Z -> x < inject_Z p + 1 -> (trunc x <= p)%Z.
Proof.
  intros Hp Hx. unfold trunc. destruct (Qle_bool 0 x) eqn:B.
  - pose proof (Qfloor_le x) as F.
    assert (L : inject_Z (Qfloor x) < inject_Z (p + 1))
      by (rewrite inject_Z_plus; change (inject_Z 1) with 1; lra).
    rewrite <- Zlt_Qlt in L. lia.
  - assert (Nx : x <= 0).
    { apply Qlt_le_weak, Qnot_le_lt. intro C. apply Qle_bool_iff in C.
      congruence. }
    pose proof (Qceiling_resp_le x 0 Nx) as C.
    change (Qceiling 0) with 0%Z in C. lia.
Qed.

Lemma trunc_nonneg_ge x p : (0 <= p)%Z -> inject_Z p <= x -> (p <= trunc x)%Z.
Proof.
  intros Hp Hx. rewrite <- (trunc_Z p). apply trunc_mono, Hx.
Qed.

(** *** Rounding error on a grid

    When the multiples of [2^g] around [x] are representable, rounding moves
    [x] by less than one grid step. *)

Lemma Qceiling_abs_le y n :
  Qabs y <= inject_Z n -> (Z.abs (Qceiling y) <= n)%Z.
Proof.
  intro H. apply Qabs_Qle_condition in H. destruct H as [L U].
  rewrite <- inject_Z_opp in L.
  apply Qceiling_resp_le in L, U. rewrite Qceiling_Z in L, U. lia.
Qed.

Lemma Qfloor_abs_le y n :
  Qabs y <= inject_Z n -> (Z.abs (Qfloor y) <= n)%Z.
Proof.
  intro H. apply Qabs_Qle_condition in H. destruct H as [L U].
  rewrite <- inject_Z_opp in L.
  apply Qfloor_resp_le in L, U. rewrite Qfloor_Z in L, U. lia.
Qed.

Lemma fl_within_grid x g :
  Qabs (x / pow2 g) <= inject_Z (2 ^ prec - 1) ->
  x - pow2 g < fl x /\ fl x < x + pow2 g.
Proof.
  intro H. pose proof (pow2_pos g) as Pg. pose proof (div_pow2 x g) as D.
  set (y := x / pow2 g) in *. split.
  - assert (R : representable (inject_Z (Qfloor y) * pow2 g)).
    { exists (Qfloor y), g. split; [| reflexivity].
      pose proof (Qfloor_abs_le y _ H). lia. }
    assert (L : inject_Z (Qfloor y) * pow2 g <= y * pow2 g)
      by (apply Qmult_le_compat_r; [apply Qfloor_le | lra]).
    rewrite D in L. pose proof (fl_ge_repr x _ L R) as G.
    pose proof (Qlt_floor y) as F. rewrite inject_Z_plus in F.
    change (inject_Z 1) with 1 in F.
    assert (M : (y - 1) * pow2 g < inject_Z (Qfloor y) * pow2 g)
      by (apply Qmult_lt_compat_r; [exact Pg | lra]).
    lra.
  - assert (R : representable (inject_Z (Qceiling y) * pow2 g)).
    { exists (Qceiling y), g. split; [| reflexivity].
      pose proof (Qceiling_abs_le y _ H). lia. }
    assert (L : y * pow2 g <= inject_Z (Qceiling y) * pow2 g)
      by (apply Qmult_le_compat_r; [apply Qle_ceiling | lra]).
    rewrite D in L. pose proof (fl_le_repr x _ L R) as G.
    pose proof (Qceiling_lt y) as F. unfold Z.sub in F.
    rewrite inject_Z_plus in F. change (inject_Z (- (1))) with (- (1)) in F.
    assert (M : inject_Z (Qceiling y) * pow2 g < (y + 1) * pow2 g)
      by (apply Qmult_lt_compat_r; [exact Pg | lra]).
    lra.
Qed.

(** *** Integers as doubles *)

Lemma of_int_mono n m : (n <= m)%Z -> of_int n <= of_int m.
Proof. intro H. apply fl_mono. rewrite <- Zle_Qle. exact H. Qed.

Lemma of_int_exact n : (Z.abs n < 2 ^ prec)%Z -> of_int n == inject_Z n.
Proof. intro H. apply fl_exact, representable_int, H. Qed.

Lemma fmul_mono_l x y c : 0 <= c -> x <= y -> fmul x c <= fmul y c.
Proof. intros Hc H. apply fl_mono, Qmult_le_compat_r; assumption. Qed.

Lemma fadd_mono x x' y y' : x <= x' -> y <= y' -> fadd x y <= fadd x' y'.
Proof. intros H1 H2. apply fl_mono, Qplus_le_compat; assumption. Qed.

#[export] Instance fadd_proper : Proper (Qeq ==> Qeq ==> Qeq) fadd.
Proof. intros x x' Hx y y' Hy. unfold fadd. rewrite Hx, Hy. reflexivity. Qed.

#[export] Instance fsub_proper : Proper (Qeq ==> Qeq ==> Qeq) fsub.
Proof. intros x x' Hx y y' Hy. unfold fsub. rewrite Hx, Hy. reflexivity. Qed.

#[export] Instance fmul_proper : Proper (Qeq ==> Qeq ==> Qeq) fmul.
Proof. intros x x' Hx y y' Hy. unfold fmul. rewrite Hx, Hy. reflexivity. Qed.

#[export] Instance fdiv_proper : Proper (Qeq ==> Qeq ==> Qeq) fdiv.
Proof. intros x x' Hx y y' Hy. unfold fdiv. rewrite Hx, Hy. reflexivity. Qed.

#[export] Instance trunc_proper : Proper (Qeq ==> eq) trunc.
Proof. intros x y E. apply trunc_ext, E. Qed.

(** *** Nearest rounding *)

Lemma Qfloor_unique y f :
  inject_Z f <= y -> y < inject_Z f + 1 -> Qfloor y = f.
Proof.
  intros L U. pose proof (Qfloor_resp_le _ _ L) as F. rewrite Qfloor_Z in F.
  pose proof (Qfloor_le y) as G.
  assert (H : inject_Z (Qfloor y) < inject_Z (f + 1))
    by (rewrite inject_Z_plus; change (inject_Z 1) with 1; lra).
  rewrite <- Zlt_Qlt in H. lia.
Qed.

Lemma rne_error y :
  inject_Z (rne y) - (1 # 2) <= y /\ y <= inject_Z (rne y) + (1 # 2).
Proof.
  unfold rne. pose proof (Qfloor_le y) as L. pose proof (Qlt_floor y) as U.
  rewrite inject_Z_plus in U. change (inject_Z 1) with 1 in U.
  destruct (Qcompare (y - inject_Z (Qfloor y)) (1 # 2)) eqn:C; compare_facts;
    try destruct (Z.even (Qfloor y));
    rewrite ?inject_Z_plus; change (inject_Z 1) with 1; split; lra.
Qed.

Lemma rne_half_even M : Z.even M = true -> rne (inject_Z M - (1 # 2)) = M.
Proof.
  intro Ev. unfold rne.
  assert (F : Qfloor (inject_Z M - (1 # 2)) = (M - 1)%Z).
  { apply Qfloor_unique; unfold Z.sub; rewrite inject_Z_plus;
      change (inject_Z (- (1))) with (- (1)); lra. }
  rewrite F.
  assert (C : inject_Z M - (1 # 2) - inject_Z (M - 1) == 1 # 2).
  { unfold Z.sub. rewrite inject_Z_plus. change (inject_Z (- (1))) with (- (1)).
    ring. }
  rewrite C. change (Qcompare (1 # 2) (1 # 2)) with Eq. cbv iota.
  replace (Z.even (M - 1)) with false; [lia |].
  symmetry. rewrite Z.even_sub, Ev. reflexivity.
Qed.

Lemma rne_ge_even M y :
  Z.even M = true -> inject_Z M - (1 # 2) <= y -> (M <= rne y)%Z.
Proof.
  intros Ev H. rewrite <- (rne_half_even M Ev) at 1. apply rne_mono, H.
Qed.

Lemma ilog2_le_int x c :
  0 < x -> x <= inject_Z c -> (ilog2 x <= Z.log2 c)%Z.
Proof.
  intros Hx Hc.
  assert (Pc : (0 < c)%Z)
    by (rewrite Zlt_Qlt; change (inject_Z 0) with 0; lra).
  destruct (log2_bounds c Pc) as [_ U]. destruct (ilog2_spec x Hx) as [L _].
  assert (ilog2 x < Z.log2 c + 1)%Z; [| lia].
  apply pow2_lt_inv. lra.
Qed.

Lemma representable_scale x k : representable x -> representable (pow2 k * x).
Proof.
  intros (m & t & Hm & E). exists m, (k + t)%Z. split; [exact Hm |].
  rewrite E, pow2_add. ring.
Qed.

Lemma pow2_double k : pow2 k == 2 * pow2 (k - 1).
Proof.
  replace k with (1 + (k - 1))%Z at 1 by lia. rewrite pow2_add. reflexivity.
Qed.

Lemma pow2_le_1 k : (k <= 0)%Z -> pow2 k <= 1.
Proof. intro H. change 1 with (pow2 0). apply pow2_le, H. Qed.

(** Splitting an integer [c] into [c * a] and [c * b] with [a + b = 1] and
    adding the rounded parts never gives less than [c]. *)
Lemma split_sum_ge (c : Z) (a b : Q) :
  (1 <= c < 2 ^ 31)%Z -> a + b == 1 -> 0 <= b -> 2 * b <= a ->
  representable a -> representable b ->
  inject_Z c <= fl (fl (inject_Z c * a) + fl (inject_Z c * b)).
Proof.
  intros Hc Hab Hb Hba Ra Rb.
  assert (Pc : (0 < c)%Z) by lia.
  destruct (Z.log2_spec c Pc) as [LE LU]. pose proof (Z.log2_nonneg c) as E0.
  set (E := Z.log2 c) in *.
  assert (E30 : (E <= 30)%Z).
  { assert (2 ^ E < 2 ^ 31)%Z by lia.
    apply Z.pow_lt_mono_r_iff in H; lia. }
  set (C := inject_Z c).
  assert (RC : representable C) by (apply representable_int; unfold prec; lia).
  assert (Eb : b == 1 - a) by lra.
  destruct (Z.eq_dec c (2 ^ E)%Z) as [Pow | NPow].
  - (* a power of two: both products are exact *)
    assert (EC : C == pow2 E)
      by (unfold C; rewrite Pow; symmetry; apply pow2_inject; lia).
    assert (Xa : fl (C * a) == C * a)
      by (rewrite EC; apply fl_exact, representable_scale, Ra).
    assert (Xb : fl (C * b) == C * b)
      by (rewrite EC; apply fl_exact, representable_scale, Rb).
    assert (S : C * a + C * b == C) by (rewrite Eb; ring).
    rewrite Xa, Xb, S, (fl_exact C RC). apply Qle_refl.
  - assert (C1 : inject_Z (2 ^ E) + 1 <= C).
    { change 1 with (inject_Z 1). rewrite <- inject_Z_plus.
      unfold C. rewrite <- Zle_Qle. lia. }
    assert (C2 : C < pow2 (E + 1)).
    { rewrite pow2_inject by lia. unfold C. rewrite <- Zlt_Qlt.
      replace (E + 1)%Z with (Z.succ E) by lia. exact LU. }
    rewrite <- pow2_inject in C1 by lia.
    pose proof (pow2_pos E) as PE.
    set (x := C * a).
    assert (Hxa : x == C - C * b) by (unfold x; rewrite Eb; ring).
    assert (Cb : 2 * (C * b) <= x) by (unfold x; nra).
    assert (Cb0 : 0 <= C * b) by nra.
    assert (Px : 0 < x) by lra.
    assert (xC : x <= C) by (unfold x; nra).
    assert (LxE : (ilog2 x <= E)%Z) by (apply ilog2_le_int; assumption).
    destruct (ilog2_spec x Px) as [_ Ux].
    pose proof (ulp_exp_pos x Px) as Es.
    assert (FX : fl x = inject_Z (rne (x / pow2 (ulp_exp x))) * pow2 (ulp_exp x))
      by reflexivity.
    set (s := ulp_exp x) in *. set (m := rne (x / pow2 s)) in *.
    assert (S22 : (s <= E - 52)%Z) by (unfold prec in Es; lia).
    pose proof (pow2_pos s) as Ps. pose proof (pow2_pos (s - 1)) as Ps1.
    pose proof (pow2_double s) as Dbl.
    destruct (rne_error (x / pow2 s)) as [_ Rm]. fold m in Rm.
    assert (Rm' : x <= (inject_Z m + (1 # 2)) * pow2 s).
    { rewrite <- (div_pow2 x s) at 1. apply Qmult_le_compat_r; lra. }
    destruct (rne_error (x / pow2 s)) as [Rl _]. fold m in Rl.
    assert (Rl' : (inject_Z m - (1 # 2)) * pow2 s <= x).
    { rewrite <- (div_pow2 x s) at 1. apply Qmult_le_compat_r; lra. }
    set (N := (c * 2 ^ (1 - s) - (2 * m + 1))%Z).
    assert (EN : inject_Z N * pow2 (s - 1)
                 == C - (inject_Z m + (1 # 2)) * pow2 s).
    { unfold N, Z.sub. rewrite inject_Z_plus, inject_Z_opp, inject_Z_plus.
      rewrite !inject_Z_mult. fold (Z.sub 1 s).
      rewrite <- (pow2_inject (1 - s)) by lia.
      change (inject_Z 2) with 2. change (inject_Z 1) with 1. fold C.
      fold (Z.sub s 1).
      assert (U1 : pow2 (1 - s) * pow2 (s - 1) == 1).
      { rewrite <- pow2_add. replace (1 - s + (s - 1))%Z with 0%Z by lia.
        reflexivity. }
      rewrite Dbl.
      setoid_replace ((C * pow2 (1 - s) + - (2 * inject_Z m + 1)) * pow2 (s - 1))
        with (C * (pow2 (1 - s) * pow2 (s - 1))
              - (2 * inject_Z m + 1) * pow2 (s - 1)) using relation Qeq by ring.
      rewrite U1. ring. }
    assert (RN : representable (C - (inject_Z m + (1 # 2)) * pow2 s)).
    { exists N, (s - 1)%Z. split; [| symmetry; exact EN].
      assert (Up : pow2 (ilog2 x + 1)
                   == 2 * (inject_Z (2 ^ prec) * pow2 (s - 1))).
      { rewrite <- pow2_inject by (unfold prec; lia). rewrite <- pow2_add.
        rewrite (pow2_double (ilog2 x + 1)).
        replace (prec + (s - 1))%Z with (ilog2 x + 1 - 1)%Z
          by (unfold prec in *; lia).
        reflexivity. }
      assert (Lo : inject_Z (- 2 ^ prec) * pow2 (s - 1) < inject_Z N * pow2 (s - 1)).
      { rewrite EN. 
        assert (inject_Z (- 2 ^ prec) * pow2 (s - 1) <= - (3) * pow2 (s - 1)).
        { apply Qmult_le_compat_r; [| lra]. apply Qle_bool_iff. reflexivity. }
        lra. }
      assert (Hi : inject_Z N * pow2 (s - 1) < inject_Z (2 ^ prec) * pow2 (s - 1)).
      { rewrite EN. lra. }
      apply Qmult_lt_r in Lo, Hi; try exact Ps1.
      rewrite <- Zlt_Qlt in Lo, Hi. lia. }
    assert (LY : C - (inject_Z m + (1 # 2)) * pow2 s <= C * b) by lra.
    pose proof (fl_ge_repr _ _ LY RN) as GY.
    fold x. rewrite FX.
    set (Y := fl (C * b)) in *. set (w := inject_Z m * pow2 s + Y).
    assert (Lw : C - pow2 (s - 1) <= w) by (unfold w; lra).
    destruct (Qlt_le_dec w C) as [Below | Above];
      [| apply fl_ge_repr; assumption].
    pose proof (pow2_le_1 (s - 1)) as P1. 
    assert (B1 : pow2 E <= w) by (specialize (P1 ltac:(lia)); lra).
    assert (B2 : w < pow2 (E + 1)) by lra.
    assert (Pw : 0 < w) by lra.
    unfold fl. rewrite (ulp_exp_pos w Pw), (ilog2_unique w E B1 B2).
    set (u := (E - (prec - 1))%Z). pose proof (pow2_pos u) as Pu.
    set (M := (c * 2 ^ (52 - E))%Z).
    assert (EM : inject_Z M * pow2 u == C).
    { unfold M. rewrite inject_Z_mult, <- pow2_inject by lia. fold C.
      rewrite <- Qmult_assoc, <- pow2_add.
      replace (52 - E + u)%Z with 0%Z by (unfold u, prec; lia).
      change (pow2 0) with 1. ring. }
    assert (Ev : Z.even M = true).
    { unfold M. rewrite Z.even_mul.
      replace (52 - E)%Z with (Z.succ (51 - E)) by lia.
      rewrite Z.pow_succ_r, Z.even_mul by lia. simpl. apply orb_true_r. }
    rewrite <- EM at 1. apply Qmult_le_compat_r; [| lra].
    rewrite <- Zle_Qle. apply rne_ge_even; [exact Ev |].
    apply Qle_shift_div_l; [exact Pu |].
    assert (Hh : (1 # 2) * pow2 u >= pow2 (s - 1)).
    { rewrite (pow2_double u).
      assert (pow2 (s - 1) <= pow2 (u - 1)) by (apply pow2_le; unfold u, prec; lia).
      lra. }
    lra.
Qed.

(** *** Symmetry *)

(** [rne y] is the integer nearest to [y]; at a tie it is even. *)
Lemma rne_tie_even y :
  (y == inject_Z (rne y) + (1 # 2) -> Z.even (rne y) = true) /\
  (y == inject_Z (rne y) - (1 # 2) -> Z.even (rne y) = true).
Proof.
  unfold rne. pose proof (Qfloor_le y) as L. pose proof (Qlt_floor y) as U.
  rewrite inject_Z_plus in U. change (inject_Z 1) with 1 in U.
  destruct (Qcompare (y - inject_Z (Qfloor y)) (1 # 2)) eqn:C; compare_facts.
  - destruct (Z.even (Qfloor y)) eqn:Ev; split; intro H;
      rewrite ?inject_Z_plus in H; change (inject_Z 1) with 1 in H;
      try (exfalso; lra); try assumption.
    rewrite Z.even_add, Ev. reflexivity.
  - split; intro H; exfalso; lra.
  - split; intro H; rewrite inject_Z_plus in H;
      change (inject_Z 1) with 1 in H; exfalso; lra.
Qed.

Lemma rne_unique y M :
  inject_Z M - (1 # 2) <= y -> y <= inject_Z M + (1 # 2) ->
  (y == inject_Z M + (1 # 2) -> Z.even M = true) ->
  (y == inject_Z M - (1 # 2) -> Z.even M = true) ->
  rne y = M.
Proof.
  intros Lo Hi Tu Td.
  pose proof (Qfloor_le y) as L. pose proof (Qlt_floor y) as U.
  rewrite inject_Z_plus in U. change (inject_Z 1) with 1 in U.
  assert (B1 : inject_Z M < inject_Z (Qfloor y + 2)).
  { rewrite inject_Z_plus. change (inject_Z 2) with 2. lra. }
  assert (B2 : inject_Z (Qfloor y) < inject_Z (M + 1)).
  { rewrite inject_Z_plus. change (inject_Z 1) with 1. lra. }
  rewrite <- Zlt_Qlt in B1, B2. unfold rne.
  destruct (Z.eq_dec M (Qfloor y)) as [E | NE].
  - rewrite <- E in *.
    destruct (Qcompare (y - inject_Z M) (1 # 2)) eqn:C; compare_facts.
    + rewrite Tu by lra. reflexivity.
    + reflexivity.
    + exfalso. lra.
  - assert (E : M = (Qfloor y + 1)%Z) by lia.
    rewrite E, inject_Z_plus in Lo, Td. change (inject_Z 1) with 1 in Lo, Td.
    destruct (Qcompare (y - inject_Z (Qfloor y)) (1 # 2)) eqn:C; compare_facts.
    + assert (Ev : Z.even (Qfloor y + 1) = true) by (apply Td; lra).
      rewrite Z.even_add in Ev.
      destruct (Z.even (Qfloor y)); [discriminate Ev | lia].
    + exfalso. lra.
    + lia.
Qed.

Lemma rne_opp y : rne (- y) = (- rne y)%Z.
Proof.
  destruct (rne_error y) as [Lo Hi]. destruct (rne_tie_even y) as [Tu Td].
  apply rne_unique; rewrite ?inject_Z_opp, ?Z.even_opp; try lra.
  - intro H. apply Td. lra.
  - intro H. apply Tu. lra.
Qed.

Lemma ulp_exp_opp x : ~ x == 0 -> ulp_exp (- x) = ulp_exp x.
Proof.
  intro NZ. unfold ulp_exp. f_equal.
  assert (P : 0 < Qabs x).
  { destruct (Q_dec x 0) as [[Neg | Pos] | Zero]; [| | contradiction].
    - rewrite Qabs_neg by lra. lra.
    - rewrite Qabs_pos by lra. lra. }
  destruct (ilog2_spec _ P) as [L U].
  apply ilog2_unique; rewrite Qabs_opp; assumption.
Qed.

Lemma fl_opp x : fl (- x) == - fl x.
Proof.
  destruct (Qeq_dec x 0) as [Z0 | NZ].
  - rewrite (fl_0 x Z0), (fl_0 (- x)) by (rewrite Z0; reflexivity).
    reflexivity.
  - unfold fl. rewrite (ulp_exp_opp x NZ).
    set (s := ulp_exp x). pose proof (pow2_pos s) as Ps.
    assert (D : - x / pow2 s == - (x / pow2 s)).
    { field. intro H. rewrite H in Ps. discriminate. }
    rewrite (rne_ext _ _ D), rne_opp, inject_Z_opp. ring.
Qed.

Lemma trunc_opp x : trunc (- x) = (- trunc x)%Z.
Proof.
  assert (F : Qfloor (- x) = (- Qceiling x)%Z) by (unfold Qceiling; lia).
  assert (C : Qceiling (- x) = (- Qfloor x)%Z).
  { unfold Qceiling. f_equal. apply Qfloor_comp. ring. }
  unfold trunc. destruct (Qle_bool 0 x) eqn:Bx; destruct (Qle_bool 0 (- x)) eqn:Bn.
  - apply Qle_bool_iff in Bx, Bn. assert (Z0 : x == 0) by lra.
    assert (Zn : - x == 0) by lra.
    rewrite (Qfloor_comp _ _ Z0), (Qfloor_comp _ _ Zn). reflexivity.
  - exact C.
  - exact F.
  - exfalso.
    assert (N1 : ~ 0 <= x) by (intro H; apply Qle_bool_iff in H; congruence).
    assert (N2 : ~ 0 <= - x) by (intro H; apply Qle_bool_iff in H; congruence).
    apply N1. apply Qnot_lt_le. intro H. apply N2. lra.
Qed.

End Binary64Facts.

(** * Properties of the sketch *)

Import Binary64Facts.
Local Open Scope Z_scope.

(** ** Agreement with the IEEE 754 reference on samples *)

Example EXP_FILTER_is_SpecFloat : (SF2Q SF_EXP_FILTER == EXP_FILTER)%Q.
Proof. apply Qeq_bool_iff. vm_compute. reflexivity. Qed.

Example decay_is_SpecFloat :
  forallb (fun '(approx, peak) =>
             Qeq_bool (SF2Q (SF_decay approx peak))
                      (fadd (fmul (of_int peak) EXP_FILTER)
                            (fmul (of_int approx) (fsub 1 EXP_FILTER))))
          decay_samples = true.
Proof. vm_compute. reflexivity. Qed.

Example height_is_SpecFloat :
  forallb (fun '(i, v, divisor) =>
             Qeq_bool (SF2Q (SF_height i v divisor)) (height_value i v divisor))
          height_samples = true.
Proof. vm_compute. reflexivity. Qed.

Example peak_decay_samples :
  map (fun '(approx, peak) => peak_decay approx peak) decay_samples
  = [3; 15925; 0; 2104533974; 896; 15999; -3; -42949673].
Proof. vm_compute. reflexivity. Qed.

Example height_value_samples :
  map (fun '(i, v, divisor) => height i v divisor) height_samples
  = [1; 13; 1167; 419; 30; 6684; 0; 200].
Proof. vm_compute. reflexivity. Qed.

(** ** Array reads and loops over an index range *)

Lemma read_Some buf i v : read buf i = Some v -> 0 <= i < Z.of_nat (length buf).
Proof.
  unfold read. destruct (Z.ltb_spec i 0) as [Neg | Pos]; [discriminate |].
  intro E. apply lookup_lt_Some in E. lia.
Qed.

Lemma read_in_range buf i :
  0 <= i < Z.of_nat (length buf) -> read buf i = Some (buf !!! Z.to_nat i).
Proof.
  intro H. unfold read. destruct (Z.ltb_spec i 0); [lia |].
  apply list_lookup_lookup_total_lt. lia.
Qed.

Lemma seqZ_snoc (n : nat) :
  seqZ 0 (Z.of_nat (S n)) = seqZ 0 (Z.of_nat n) ++ [Z.of_nat n].
Proof.
  unfold seqZ. rewrite !Nat2Z.id, seq_S, fmap_app. simpl.
  do 2 f_equal. lia.
Qed.

Lemma quarter_samples : Z.quot SAMPLES 4 = Z.of_nat 64.
Proof. reflexivity. Qed.

(** ** Colour mapping *)

Lemma to_uint8_small x : 0 <= x < 256 -> to_uint8 x = x.
Proof. intro H. unfold to_uint8. apply Z.mod_small. exact H. Qed.

(** C5, as stated, fails: the argument is an 8-bit value, so for inputs
    from 64 on, [x + 192] wraps around before the reduction modulo 192. *)
Lemma rainbowColor_period_wraps : rainbowColor 64 <> rainbowColor (64 + 192).
Proof. vm_compute. discriminate. Qed.

(** C5, amended: for every 8-bit input [x] the colour depends only on
    [x mod 192], and [rainbowColor (x + 192) = rainbowColor x] whenever
    [x + 192] still fits in 8 bits. *)
Theorem rainbowColor_period_8bit x :
  0 <= x <= 255 ->
  rainbowColor x = rainbowColor (x mod 192) /\
  (x + 192 <= 255 -> rainbowColor (x + 192) = rainbowColor x).
Proof.
  intro Hx. split.
  - unfold rainbowColor.
    assert (E : to_uint8 (to_uint8 (x mod 192) mod 192)
                = to_uint8 (to_uint8 x mod 192)).
    { pose proof (Z.mod_pos_bound x 192) as B.
      rewrite (to_uint8_small x) by lia.
      rewrite (to_uint8_small (x mod 192)) by lia.
      rewrite Z.mod_mod by lia. apply to_uint8_small. lia. }
    rewrite E. reflexivity.
  - intro Hs. unfold rainbowColor.
    assert (E : to_uint8 (to_uint8 (x + 192) mod 192)
                = to_uint8 (to_uint8 x mod 192)).
    { rewrite (to_uint8_small x), (to_uint8_small (x + 192)) by lia.
      f_equal. replace (x + 192) with (x + 1 * 192) by lia.
      apply Z.mod_add. lia. }
    rewrite E. reflexivity.
Qed.

Lemma rainbowColor_period_8bit_witness :
  rainbowColor 40 = rainbowColor (40 mod 192) /\
  (40 + 192 <= 255 -> rainbowColor (40 + 192) = rainbowColor 40).
Proof. apply (rainbowColor_period_8bit 40). lia. Defined.

(** ** Scaling *)

Lemma to_int16_small x : - 2 ^ 15 <= x < 2 ^ 15 -> to_int16 x = x.
Proof. intro H. unfold to_int16. rewrite Z.mod_small; lia. Qed.

Lemma scale_sample_int16 raw :
  - 2 ^ 15 <= raw < 2 ^ 15 -> scale_sample raw = Z.quot raw 4 - 512 + 49.
Proof.
  intro H. unfold scale_sample. apply to_int16_small.
  pose proof (Z.quot_rem' raw 4) as E.
  pose proof (Z.rem_bound_abs raw 4) as B. lia.
Qed.

Lemma scale_loop_lookup sampleBuffer (n : nat) streamBuffer approxBuffer :
  (n <= length streamBuffer)%nat -> (n <= length approxBuffer)%nat ->
  let st := foldl (scale_step sampleBuffer) (streamBuffer, approxBuffer)
                  (seqZ 0 (Z.of_nat n)) in
  length st.1 = length streamBuffer /\ length st.2 = length approxBuffer /\
  forall i : nat,
    st.1 !! i = (if decide (i < n)%nat
                 then Some (scale_sample (sampleBuffer !!! i))
                 else streamBuffer !! i) /\
    st.2 !! i = (if decide (i < n)%nat then st.1 !! i else approxBuffer !! i).
Proof.
  induction n as [| n IH]; intros Hs Ha.
  - simpl. repeat split; reflexivity.
  - rewrite seqZ_snoc, foldl_app. simpl.
    destruct IH as (L1 & L2 & IH); [lia | lia |].
    destruct (foldl _ _ (seqZ 0 (Z.of_nat n))) as [sb ab]. simpl in *.
    rewrite Nat2Z.id, !length_insert.
    split; [exact L1 | split; [exact L2 |]].
    intro i. destruct (IH i) as [I1 I2].
    destruct (decide (i = n)) as [-> | NE].
    + rewrite !list_lookup_insert_eq by lia.
      rewrite list_lookup_total_insert_eq by lia.
      rewrite !decide_True by lia. split; reflexivity.
    + rewrite !list_lookup_insert_ne by lia.
      destruct (decide (i < n)%nat); [rewrite !decide_True by lia
                                     | rewrite !decide_False by lia];
        split; congruence.
Qed.

(** C9: scaling is element-wise, [raw / 4 - 512 + 49], and the transform's
    buffer holds at every index the value of the scaled window. *)
Theorem scaling_elementwise sampleBuffer streamBuffer approxBuffer i :
  length sampleBuffer = Z.to_nat SAMPLES ->
  length streamBuffer = Z.to_nat SAMPLES ->
  length approxBuffer = Z.to_nat SAMPLES ->
  0 <= i < SAMPLES ->
  let st := scale_samples sampleBuffer streamBuffer approxBuffer in
  exists raw,
    read sampleBuffer i = Some raw /\
    read st.1 i = Some (scale_sample raw) /\
    read st.2 i = read st.1 i /\
    (- 2 ^ 15 <= raw < 2 ^ 15 -> scale_sample raw = Z.quot raw 4 - 512 + 49).
Proof.
  intros Lr Ls La Hi st. exists (sampleBuffer !!! Z.to_nat i).
  destruct (scale_loop_lookup sampleBuffer (Z.to_nat SAMPLES)
              streamBuffer approxBuffer) as (L1 & L2 & H); [lia | lia |].
  rewrite Z2Nat.id in * by (unfold SAMPLES; lia).
  fold (scale_samples sampleBuffer streamBuffer approxBuffer) in *.
  fold st in L1, L2, H.
  destruct (H (Z.to_nat i)) as [H1 H2].
  rewrite decide_True in H1, H2 by lia.
  split; [apply read_in_range; lia |].
  unfold read. destruct (Z.ltb_spec i 0); [lia |].
  rewrite H2, H1. repeat split. apply scale_sample_int16.
Qed.

Lemma scaling_elementwise_witness :
  let raw := replicate 256 2048 in
  let st := scale_samples raw (replicate 256 0) (replicate 256 0) in
  exists v,
    read raw 3 = Some v /\
    read st.1 3 = Some (scale_sample v) /\
    read st.2 3 = read st.1 3 /\
    (- 2 ^ 15 <= v < 2 ^ 15 -> scale_sample v = Z.quot v 4 - 512 + 49).
Proof.
  apply (scaling_elementwise (replicate 256 2048) (replicate 256 0)
           (replicate 256 0) 3); try reflexivity.
  unfold SAMPLES. lia.
Defined.

(** ** Trigger detection *)

Lemma to_uint16_small x : 0 <= x < 2 ^ 16 -> to_uint16 x = x.
Proof. intro H. unfold to_uint16. apply Z.mod_small. exact H. Qed.

Lemma trigger_loop_spec streamBuffer fuel :
  length streamBuffer = Z.to_nat SAMPLES ->
  forall startSample,
    0 <= startSample <= Z.quot SAMPLES 2 - 1 ->
    Z.quot SAMPLES 2 - 1 - startSample < Z.of_nat fuel ->
    exists s,
      trigger_loop fuel streamBuffer startSample = Some s /\
      startSample <= s <= Z.quot SAMPLES 2 - 1 /\
      (forall j, startSample <= j < s -> ~ rising_at streamBuffer j) /\
      (s < Z.quot SAMPLES 2 - 1 -> rising_at streamBuffer s).
Proof.
  intro Len. change (Z.quot SAMPLES 2 - 1) with 127.
  induction fuel as [| fuel IH]; intros s0 Hs Hf; [lia |].
  simpl. change (Z.quot SAMPLES 2 - 1) with 127.
  destruct (Z.ltb_spec s0 127) as [Lt | Ge].
  - assert (R0 : read streamBuffer s0 = Some (streamBuffer !!! Z.to_nat s0))
      by (apply read_in_range; rewrite Len; unfold SAMPLES; lia).
    assert (R1 : read streamBuffer (s0 + 1)
                 = Some (streamBuffer !!! Z.to_nat (s0 + 1)))
      by (apply read_in_range; rewrite Len; unfold SAMPLES; lia).
    rewrite R0. cbn [mbind option_bind].
    set (a := streamBuffer !!! Z.to_nat s0) in *.
    set (b := streamBuffer !!! Z.to_nat (s0 + 1)) in *.
    assert (Miss : ~ (0 < a /\ a < 4 * TRACE_SCALE /\ b > a) ->
              forall s,
                (s0 + 1 <= s <= 127 /\
                 (forall j, s0 + 1 <= j < s -> ~ rising_at streamBuffer j) /\
                 (s < 127 -> rising_at streamBuffer s)) ->
                s0 <= s <= 127 /\
                (forall j, s0 <= j < s -> ~ rising_at streamBuffer j) /\
                (s < 127 -> rising_at streamBuffer s)).
    { intros No s (Bs & Min & Hit). split; [lia |]. split; [| exact Hit].
      intros j Hj. destruct (Z.eq_dec j s0) as [-> | NE]; [| apply Min; lia].
      intros (a' & b' & Ra & Rb & Cond). rewrite R0 in Ra. rewrite R1 in Rb.
      injection Ra as <-. injection Rb as <-. exact (No Cond). }
    destruct ((0 <? a) && (a <? 4 * TRACE_SCALE)) eqn:Band.
    + rewrite R1. cbn [mbind option_bind]. fold b.
      apply andb_true_iff in Band. destruct Band as [B1 B2].
      apply Z.ltb_lt in B1, B2.
      destruct (Z.ltb_spec a b) as [Up | Down].
      * exists s0. split; [reflexivity |]. split; [lia |].
        split; [intros j Hj; lia |]. intros _.
        exists a, b. repeat split; try assumption. lia.
      * rewrite to_uint16_small by lia.
        destruct (IH (s0 + 1)) as (s & Es & Rest); [lia | lia |].
        exists s. split; [exact Es |]. apply Miss; [lia | exact Rest].
    + cbn [mbind option_bind]. rewrite to_uint16_small by lia.
      destruct (IH (s0 + 1)) as (s & Es & Rest); [lia | lia |].
      exists s. split; [exact Es |]. apply Miss; [| exact Rest].
      apply andb_false_iff in Band. rewrite !Z.ltb_ge in Band. lia.
  - exists s0. split; [reflexivity |]. split; [lia |].
    split; intros; lia.
Qed.

(** C2: the trigger detector returns the least index in [0, N/2 - 2] with a
    rising edge in the band, and N/2 - 1 when there is none; the result
    lies in [0, N/2 - 1]. *)
Theorem trigger_least_rising_edge streamBuffer :
  length streamBuffer = Z.to_nat SAMPLES ->
  exists s,
    trigger streamBuffer = Some s /\
    0 <= s <= Z.quot SAMPLES 2 - 1 /\
    (forall j, 0 <= j < s -> ~ rising_at streamBuffer j) /\
    (s < Z.quot SAMPLES 2 - 1 -> rising_at streamBuffer s) /\
    ((forall j, 0 <= j <= Z.quot SAMPLES 2 - 2 -> ~ rising_at streamBuffer j) ->
     s = Z.quot SAMPLES 2 - 1).
Proof.
  intro Len.
  destruct (trigger_loop_spec streamBuffer (Z.to_nat SAMPLES) Len 0)
    as (s & Es & Bs & Min & Hit).
  - change (Z.quot SAMPLES 2 - 1) with 127. lia.
  - change (Z.quot SAMPLES 2 - 1) with 127. unfold SAMPLES. lia.
  - exists s. split; [exact Es |]. split; [exact Bs |]. split; [exact Min |].
    split; [exact Hit |]. intro None.
    destruct (Z.eq_dec s (Z.quot SAMPLES 2 - 1)) as [E | NE]; [exact E |].
    exfalso. change (Z.quot SAMPLES 2) with 128 in *.
    apply (None s); [| apply Hit]; lia.
Qed.

Lemma trigger_least_rising_edge_witness :
  let w := replicate 100 0 ++ [5; 9] ++ replicate 154 0 in
  exists s,
    trigger w = Some s /\
    0 <= s <= Z.quot SAMPLES 2 - 1 /\
    (forall j, 0 <= j < s -> ~ rising_at w j) /\
    (s < Z.quot SAMPLES 2 - 1 -> rising_at w s) /\
    ((forall j, 0 <= j <= Z.quot SAMPLES 2 - 2 -> ~ rising_at w j) ->
     s = Z.quot SAMPLES 2 - 1).
Proof.
  apply (trigger_least_rising_edge
           (replicate 100 0 ++ [5; 9] ++ replicate 154 0)).
  reflexivity.
Defined.

(** ** Trace rendering *)

Lemma pw_value : pw = 4.
Proof. vm_compute. reflexivity. Qed.

Lemma trace_loop_lines streamBuffer (n : nat) :
  length streamBuffer = Z.to_nat SAMPLES ->
  forall fuel x startSample lines,
    0 <= x -> x = WIDTH - pw * Z.of_nat n -> (n < fuel)%nat ->
    0 <= startSample -> startSample + Z.of_nat n < SAMPLES - 1 ->
    trace_loop fuel streamBuffer x startSample lines
    = Some (lines ++ (trace_segment streamBuffer x startSample
                        <$> seqZ 0 (Z.of_nat n))).
Proof.
  intro Len. rewrite pw_value. unfold SAMPLES, WIDTH in *.
  induction n as [| n IH]; intros fuel x s lines Hx0 Hx Hf Hs Hn;
    (destruct fuel as [| fuel]; [lia |]); simpl; unfold WIDTH, SAMPLES.
  - destruct (Z.ltb_spec x 256); [lia |].
    rewrite app_nil_r. reflexivity.
  - destruct (Z.ltb_spec x 256); [| lia].
    rewrite (read_in_range streamBuffer s) by (rewrite Len; lia).
    rewrite (read_in_range streamBuffer (s + 1)) by (rewrite Len; lia).
    cbn [mbind option_bind]. rewrite pw_value, !to_uint16_small by lia.
    destruct (Z.leb_spec (256 - 1) (s + 1)) as [Brk | Go]; [lia |].
    rewrite IH by lia. f_equal. rewrite <- app_assoc. f_equal.
    rewrite (seqZ_cons 0 (Z.of_nat (S n))) by lia. rewrite fmap_cons.
    cbn [app]. f_equal.
    + unfold trace_segment. rewrite pw_value, Z.mul_0_r, !Z.add_0_r.
      reflexivity.
    + replace (Z.pred (Z.of_nat (S n))) with (Z.of_nat n) by lia.
      replace (Z.succ 0) with (1 + 0) by lia.
      rewrite <- fmap_add_seqZ, <- list_fmap_compose.
      apply list_fmap_ext. intros _ k _. unfold compose, trace_segment.
      rewrite pw_value.
      replace (x + 4 * (1 + k)) with (x + 4 + 4 * k) by lia.
      replace (s + (1 + k)) with (s + 1 + k) by lia. reflexivity.
Qed.

(** C10: with the trigger index at most N/2 - 1, the trace loop draws
    WIDTH/pw = N/4 segments, the [k]-th from the samples at
    [startSample + k] and [startSample + k + 1], and every such index, the
    lookahead included, lies inside the array: no read fails. *)
Theorem trace_reads_in_bounds streamBuffer startSample :
  length streamBuffer = Z.to_nat SAMPLES ->
  0 <= startSample <= Z.quot SAMPLES 2 - 1 ->
  draw_trace streamBuffer startSample
  = Some (trace_segment streamBuffer 0 startSample
            <$> seqZ 0 (Z.quot SAMPLES 4)) /\
  Z.quot WIDTH pw = Z.quot SAMPLES 4 /\
  forall k, 0 <= k < Z.quot SAMPLES 4 ->
    0 <= startSample + k /\ startSample + k + 1 < SAMPLES /\
    is_Some (read streamBuffer (startSample + k)) /\
    is_Some (read streamBuffer (startSample + k + 1)).
Proof.
  intros Len Hs. change (Z.quot SAMPLES 2 - 1) with 127 in Hs.
  rewrite quarter_samples. split; [| split].
  - unfold draw_trace.
    rewrite (trace_loop_lines streamBuffer 64 Len); try reflexivity;
      rewrite ?pw_value; unfold WIDTH, SAMPLES; lia.
  - rewrite pw_value. reflexivity.
  - intros k Hk. unfold SAMPLES.
    split; [lia |]. split; [lia |].
    rewrite !read_in_range by (rewrite Len; unfold SAMPLES; lia).
    split; eexists; reflexivity.
Qed.

Lemma trace_reads_in_bounds_witness :
  draw_trace (replicate 256 5) 127
  = Some (trace_segment (replicate 256 5) 0 127 <$> seqZ 0 (Z.quot SAMPLES 4)) /\
  Z.quot WIDTH pw = Z.quot SAMPLES 4 /\
  forall k, 0 <= k < Z.quot SAMPLES 4 ->
    0 <= 127 + k /\ 127 + k + 1 < SAMPLES /\
    is_Some (read (replicate 256 5) (127 + k)) /\
    is_Some (read (replicate 256 5) (127 + k + 1)).
Proof.
  apply (trace_reads_in_bounds (replicate 256 5) 127);
    [reflexivity | vm_compute; split; discriminate].
Defined.

(** X1: one pass of [loop] always completes: whatever the samples and the
    transform, the trigger is found and the trace is drawn without a read
    outside [streamBuffer]. *)
Lemma loop_completes Approx_FFT g :
  length (sampleBuffer g) = Z.to_nat SAMPLES ->
  length (streamBuffer g) = Z.to_nat SAMPLES ->
  length (approxBuffer g) = Z.to_nat SAMPLES ->
  exists g' d,
    loop Approx_FFT g = Some (g', d) /\
    (streamBuffer g', approxBuffer g')
    = (let st := scale_samples (sampleBuffer g) (streamBuffer g)
                               (approxBuffer g) in
       (st.1, Approx_FFT st.2 SAMPLES SAMPLING_FREQUENCY)) /\
    length (trace d) = 64%nat.
Proof.
  intros Lr Ls La. unfold loop.
  destruct (scale_loop_lookup (sampleBuffer g) (Z.to_nat SAMPLES)
              (streamBuffer g) (approxBuffer g)) as (L1 & _ & _); [lia | lia |].
  rewrite Z2Nat.id in L1 by (unfold SAMPLES; lia).
  fold (scale_samples (sampleBuffer g) (streamBuffer g) (approxBuffer g)) in L1.
  destruct (scale_samples _ _ _) as [stream approx]. cbn [fst snd] in *.
  destruct (draw_spectrum _ _) as [peak bs].
  rewrite Ls in L1.
  destruct (trigger_loop_spec stream (Z.to_nat SAMPLES) L1 0)
    as (s & Es & Bs & _);
    [change (Z.quot SAMPLES 2 - 1) with 127; unfold SAMPLES; lia .. |].
  change (Z.quot SAMPLES 2 - 1) with 127 in Bs.
  unfold trigger. rewrite Es. cbn [mbind option_bind].
  unfold draw_trace.
  rewrite (trace_loop_lines stream 64 L1); try reflexivity;
    rewrite ?pw_value; unfold WIDTH, SAMPLES; try lia.
  cbn [mbind option_bind]. eexists _, _. split; [reflexivity |].
  split; [reflexivity |]. cbn [trace]. rewrite app_nil_l, length_fmap.
  apply length_seqZ.
Qed.

(** ** Peak tracking *)

Section Peak.
Local Open Scope Q_scope.

Lemma EXP_FILTER_range : 0 <= EXP_FILTER /\ EXP_FILTER <= 1.
Proof. split; apply Qle_bool_iff; vm_compute; reflexivity. Qed.

(** [1.0 - EXP_FILTER] is computed without rounding error. *)
Lemma EXP_FILTER_complement : fsub 1 EXP_FILTER == 1 - EXP_FILTER.
Proof. apply Qeq_bool_iff. vm_compute. reflexivity. Qed.

Lemma peak_decay_mono approx approx' peak peak' :
  (approx <= approx')%Z -> (peak <= peak')%Z ->
  (peak_decay approx peak <= peak_decay approx' peak')%Z.
Proof.
  intros Ha Hp. destruct EXP_FILTER_range as [A0 A1].
  unfold peak_decay, double_to_int. apply trunc_mono. apply fadd_mono.
  - apply fmul_mono_l; [exact A0 | apply of_int_mono, Hp].
  - apply fmul_mono_l; [| apply of_int_mono, Ha].
    rewrite EXP_FILTER_complement. lra.
Qed.

(** The two rounded products and their rounded sum stay within 1/4 of
    the exact convex combination. *)
Lemma decay_error approx peak :
  (INT_MIN <= approx <= INT_MAX)%Z -> (INT_MIN <= peak <= INT_MAX)%Z ->
  let exact := inject_Z peak * EXP_FILTER + inject_Z approx * (1 - EXP_FILTER) in
  let d := fadd (fmul (of_int peak) EXP_FILTER)
                (fmul (of_int approx) (fsub 1 EXP_FILTER)) in
  exact - (1 # 4) < d /\ d < exact + (1 # 4).
Proof.
  unfold INT_MIN, INT_MAX. intros Ha Hp. destruct EXP_FILTER_range as [A0 A1].
  cbv zeta. rewrite EXP_FILTER_complement.
  rewrite (of_int_exact peak), (of_int_exact approx) by (unfold prec; lia).
  set (a := EXP_FILTER) in *. set (b := 1 - a).
  assert (B0 : 0 <= b) by (unfold b; lra).
  assert (B1 : b <= 1) by (unfold b; lra).
  assert (Bound : forall n c, (- 2 ^ 31 <= n <= 2 ^ 31 - 1)%Z ->
            0 <= c -> c <= 1 -> Qabs (inject_Z n * c) <= inject_Z (2 ^ 31)).
  { intros n c Hn C0 C1. apply Qabs_Qle_condition.
    assert (L : inject_Z (- 2 ^ 31) <= inject_Z n) by (rewrite <- Zle_Qle; lia).
    assert (U : inject_Z n <= inject_Z (2 ^ 31)) by (rewrite <- Zle_Qle; lia).
    rewrite inject_Z_opp in L. set (N := inject_Z (2 ^ 31)) in *.
    assert (0 <= N) by (unfold N; apply Qle_bool_iff; reflexivity).
    split; nra. }
  assert (Grid : forall z, Qabs z <= inject_Z (2 ^ 31) ->
            Qabs (z / pow2 (-21)) <= inject_Z (2 ^ prec - 1)).
  { intros z Hz.
    rewrite (div_pow2_neg z 21), pow2_inject by lia. rewrite Qabs_Qmult.
    rewrite (Qabs_pos (inject_Z (2 ^ 21))) by (apply Qle_bool_iff; reflexivity).
    apply Qle_trans with (inject_Z (2 ^ 31) * inject_Z (2 ^ 21)).
    - apply Qmult_le_compat_r; [exact Hz | apply Qle_bool_iff; reflexivity].
    - apply Qle_bool_iff. reflexivity. }
  unfold fmul, fadd.
  destruct (fl_within_grid (inject_Z peak * a) (-21)) as [X1 X2];
    [apply Grid, Bound; assumption |].
  destruct (fl_within_grid (inject_Z approx * b) (-21)) as [Y1 Y2];
    [apply Grid, Bound; assumption |].
  set (X := fl (inject_Z peak * a)) in *.
  set (Y := fl (inject_Z approx * b)) in *.
  assert (P21 : pow2 (-21) == 1 # 2097152) by reflexivity.
  rewrite P21 in *.
  pose proof (Bound peak a Hp A0 A1) as Bx. apply Qabs_Qle_condition in Bx.
  pose proof (Bound approx b Ha B0 B1) as By. apply Qabs_Qle_condition in By.
  change (inject_Z (2 ^ 31)) with (2147483648 # 1) in *.
  destruct (fl_within_grid (X + Y) (-20)) as [S1 S2].
  { rewrite (div_pow2_neg (X + Y) 20), pow2_inject by lia.
    apply Qabs_Qle_condition.
    change (inject_Z (2 ^ 20)) with (1048576 # 1).
    change (inject_Z (2 ^ prec - 1)) with (9007199254740991 # 1). lra. }
  assert (P20 : pow2 (-20) == 1 # 1048576) by reflexivity.
  rewrite P20 in *. lra.
Qed.

Lemma EXP_FILTER_representable :
  representable EXP_FILTER /\ representable (1 - EXP_FILTER).
Proof.
  split.
  - exists 8827055269646172%Z, (-53)%Z. split; [reflexivity |].
    apply Qeq_bool_iff. vm_compute. reflexivity.
  - exists 180143985094820%Z, (-53)%Z. split; [reflexivity |].
    apply Qeq_bool_iff. vm_compute. reflexivity.
Qed.

Lemma EXP_FILTER_dominates : 2 * (1 - EXP_FILTER) <= EXP_FILTER.
Proof. apply Qle_bool_iff. vm_compute. reflexivity. Qed.

(** With equal arguments the filter returns at least its argument. *)
Lemma peak_decay_diag c : (0 <= c <= INT_MAX)%Z -> (c <= peak_decay c c)%Z.
Proof.
  unfold INT_MAX. intro Hc. destruct EXP_FILTER_range as [A0 A1].
  destruct EXP_FILTER_representable as [Ra Rb].
  destruct (Z.eq_dec c 0%Z) as [-> | NZ]; [vm_compute; discriminate |].
  unfold peak_decay, double_to_int. apply trunc_nonneg_ge; [lia |].
  rewrite EXP_FILTER_complement, (of_int_exact c) by (unfold prec; lia).
  apply (split_sum_ge c EXP_FILTER (1 - EXP_FILTER)).
  - lia.
  - ring.
  - lra.
  - apply EXP_FILTER_dominates.
  - exact Ra.
  - exact Rb.
Qed.

Lemma peak_decay_le approx peak :
  (INT_MIN <= approx)%Z -> (approx <= peak)%Z -> (0 <= peak <= INT_MAX)%Z ->
  (peak_decay approx peak <= peak)%Z.
Proof.
  intros Ha Hap Hp. destruct EXP_FILTER_range as [A0 A1].
  destruct (decay_error approx peak) as [_ U]; [lia | unfold INT_MIN; lia |].
  unfold peak_decay, double_to_int. apply trunc_nonneg_lt; [lia |].
  cbv zeta in U.
  assert (L : inject_Z approx <= inject_Z peak) by (rewrite <- Zle_Qle; lia).
  set (a := EXP_FILTER) in *. set (P := inject_Z peak) in *.
  set (A := inject_Z approx) in *.
  assert (A * (1 - a) <= P * (1 - a)) by (apply Qmult_le_compat_r; lra).
  lra.
Qed.

Lemma peak_decay_opp approx peak :
  peak_decay (- approx) (- peak) = (- peak_decay approx peak)%Z.
Proof.
  unfold peak_decay, double_to_int, of_int, fadd, fmul.
  rewrite !inject_Z_opp, <- trunc_opp. apply trunc_ext.
  rewrite <- fl_opp. apply fl_ext.
  generalize (fsub 1 EXP_FILTER). generalize EXP_FILTER. intros a b.
  rewrite !fl_opp.
  setoid_replace (- fl (inject_Z peak) * a) with (- (fl (inject_Z peak) * a))
    using relation Qeq by ring.
  setoid_replace (- fl (inject_Z approx) * b)
    with (- (fl (inject_Z approx) * b)) using relation Qeq by ring.
  rewrite !fl_opp. ring.
Qed.

(** With equal arguments the filter returns its argument. *)
Lemma peak_decay_fixed c :
  (INT_MIN <= c <= INT_MAX)%Z -> peak_decay c c = c.
Proof.
  intro Hc. destruct (Z_lt_le_dec c 0) as [Neg | Pos].
  - destruct (Z.eq_dec c INT_MIN) as [-> | NE]; [vm_compute; reflexivity |].
    assert (Hn : (0 <= - c <= INT_MAX)%Z) by (unfold INT_MIN, INT_MAX in *; lia).
    replace c with (- - c)%Z at 1 2 by lia. rewrite peak_decay_opp.
    pose proof (peak_decay_diag (- c) Hn).
    pose proof (peak_decay_le (- c) (- c)). unfold INT_MIN in *. lia.
  - pose proof (peak_decay_diag c). pose proof (peak_decay_le c c).
    unfold INT_MIN in *. lia.
Qed.

(** The filter value lies between the bin and the old peak. *)
Lemma peak_decay_between approx peak :
  (INT_MIN <= approx)%Z -> (approx <= peak)%Z -> (peak <= INT_MAX)%Z ->
  (approx <= peak_decay approx peak <= peak)%Z.
Proof.
  intros Ha Hap Hp. split.
  - rewrite <- (peak_decay_fixed approx) at 1 by lia.
    apply peak_decay_mono; lia.
  - rewrite <- (peak_decay_fixed peak) at 2 by lia.
    apply peak_decay_mono; lia.
Qed.

(** The stored value is the exact combination up to rounding and the
    dropped fraction. *)
Lemma peak_decay_near approx peak :
  (INT_MIN <= approx <= INT_MAX)%Z -> (INT_MIN <= peak <= INT_MAX)%Z ->
  let exact := inject_Z peak * EXP_FILTER + inject_Z approx * (1 - EXP_FILTER) in
  exact - (5 # 4) < inject_Z (peak_decay approx peak) /\
  inject_Z (peak_decay approx peak) < exact + (5 # 4).
Proof.
  intros Ha Hp. pose proof (decay_error approx peak Ha Hp) as D.
  cbv zeta in *. unfold peak_decay, double_to_int.
  revert D. generalize (fadd (fmul (of_int peak) EXP_FILTER)
                             (fmul (of_int approx) (fsub 1 EXP_FILTER))).
  generalize (inject_Z peak * EXP_FILTER + inject_Z approx * (1 - EXP_FILTER)).
  intros exact d [L U]. unfold trunc.
  pose proof (Qfloor_le d). pose proof (Qlt_floor d) as F.
  pose proof (Qle_ceiling d). pose proof (Qceiling_lt d) as G.
  rewrite inject_Z_plus in F. unfold Z.sub in G. rewrite inject_Z_plus in G.
  change (inject_Z 1) with 1 in F. change (inject_Z (- (1))) with (- (1)) in G.
  destruct (Qle_bool 0 d); split; lra.
Qed.

Lemma peak_decay_int_range approx peak :
  (INT_MIN <= approx <= INT_MAX)%Z -> (INT_MIN <= peak <= INT_MAX)%Z ->
  (INT_MIN <= peak_decay approx peak <= INT_MAX)%Z.
Proof.
  intros Ha Hp. split.
  - transitivity (peak_decay INT_MIN INT_MIN);
      [vm_compute; discriminate | apply peak_decay_mono; lia].
  - transitivity (peak_decay INT_MAX INT_MAX);
      [apply peak_decay_mono; lia | vm_compute; discriminate].
Qed.

End Peak.

Lemma quot_FFT_SCALE_lt p : Z.quot p FFT_SCALE < HEIGHT <-> p < 16000.
Proof.
  unfold FFT_SCALE, HEIGHT. Z.to_euclidean_division_equations. lia.
Qed.

(** ** The spectrum loop *)

Lemma spectrum_loop_lookup approxBuffer (n : nat) peakBuffer :
  (n <= length peakBuffer)%nat ->
  let st := foldl (spectrum_bin approxBuffer) (peakBuffer, [])
                  (seqZ 0 (Z.of_nat n)) in
  length st.1 = length peakBuffer /\ length st.2 = n /\
  forall i : nat,
    st.1 !! i = (if decide (i < n)%nat
                 then Some (peak_update (approxBuffer !!! i) (peakBuffer !!! i))
                 else peakBuffer !! i) /\
    ((i < n)%nat ->
     st.2 !! i = Some (spectrum_bar (Z.of_nat i) (approxBuffer !!! i)
                         (peak_update (approxBuffer !!! i) (peakBuffer !!! i)))).
Proof.
  induction n as [| n IH]; intro Hn.
  - simpl. split; [reflexivity |]. split; [reflexivity |].
    intro i. split; [reflexivity | lia].
  - rewrite seqZ_snoc, foldl_app. simpl.
    destruct IH as (L1 & L2 & IH); [lia |].
    destruct (foldl _ _ (seqZ 0 (Z.of_nat n))) as [pk bars]. simpl in *.
    rewrite Nat2Z.id, length_insert, length_app. simpl.
    split; [exact L1 |]. split; [lia |].
    assert (Old : pk !!! n = peakBuffer !!! n).
    { rewrite !list_lookup_total_alt. destruct (IH n) as [I _].
      rewrite decide_False in I by lia. rewrite I. reflexivity. }
    rewrite list_lookup_total_insert_eq by lia. rewrite Old.
    intro i. destruct (IH i) as [I1 I2].
    destruct (decide (i = n)) as [-> | NE].
    + rewrite list_lookup_insert_eq by lia. rewrite decide_True by lia.
      split; [reflexivity |]. intros _.
      rewrite lookup_app_r by lia. rewrite L2, Nat.sub_diag. reflexivity.
    + rewrite list_lookup_insert_ne by lia. rewrite I1.
      destruct (decide (i < n)%nat).
      * rewrite decide_True by lia. split; [reflexivity |]. intros _.
        rewrite lookup_app_l by lia. apply I2. assumption.
      * rewrite decide_False by lia. split; [reflexivity | lia].
Qed.

Lemma draw_spectrum_lookup approxBuffer peakBuffer :
  length peakBuffer = Z.to_nat SAMPLES ->
  let st := draw_spectrum approxBuffer peakBuffer in
  length st.1 = Z.to_nat SAMPLES /\ length st.2 = 64%nat /\
  forall i : nat,
    st.1 !! i = (if decide (i < 64)%nat
                 then Some (peak_update (approxBuffer !!! i) (peakBuffer !!! i))
                 else peakBuffer !! i) /\
    ((i < 64)%nat ->
     st.2 !! i = Some (spectrum_bar (Z.of_nat i) (approxBuffer !!! i)
                         (peak_update (approxBuffer !!! i) (peakBuffer !!! i)))).
Proof.
  intro Len. unfold draw_spectrum. rewrite quarter_samples.
  destruct (spectrum_loop_lookup approxBuffer 64 peakBuffer)
    as (L1 & L2 & H); [rewrite Len; unfold SAMPLES; lia |].
  cbv zeta. rewrite L1. split; [exact Len |]. split; [exact L2 | exact H].
Qed.

Lemma draw_spectrum_peak approxBuffer peakBuffer i cur prev :
  length peakBuffer = Z.to_nat SAMPLES ->
  0 <= i < Z.quot SAMPLES 4 ->
  read approxBuffer i = Some cur -> read peakBuffer i = Some prev ->
  read (draw_spectrum approxBuffer peakBuffer).1 i
  = Some (peak_update cur prev).
Proof.
  intros Len Hi Rc Rp. rewrite quarter_samples in Hi.
  destruct (draw_spectrum_lookup approxBuffer peakBuffer Len) as (_ & _ & H).
  destruct (H (Z.to_nat i)) as [H1 _]. rewrite decide_True in H1 by lia.
  unfold read in *. destruct (Z.ltb_spec i 0); [lia |].
  rewrite H1, !list_lookup_total_alt, Rc, Rp. reflexivity.
Qed.

Lemma draw_spectrum_below approxBuffer peakBuffer (P : Z -> Prop) :
  length peakBuffer = Z.to_nat SAMPLES ->
  (forall approx peak, P peak -> P (peak_update approx peak)) ->
  Forall P peakBuffer ->
  Forall P (draw_spectrum approxBuffer peakBuffer).1.
Proof.
  intros Len Step Inv. apply Forall_lookup. intros i p Hp.
  destruct (draw_spectrum_lookup approxBuffer peakBuffer Len) as (_ & _ & H).
  destruct (H i) as [H1 _]. rewrite H1 in Hp.
  destruct (decide (i < 64)%nat) as [Lt | Ge].
  - injection Hp as <-. apply Step. rewrite list_lookup_total_alt.
    destruct (peakBuffer !! i) as [q |] eqn:E.
    + apply (Forall_lookup_1 _ _ _ _ Inv E).
    + apply lookup_ge_None in E. rewrite Len in E. unfold SAMPLES in E. lia.
  - apply (Forall_lookup_1 _ _ _ _ Inv Hp).
Qed.

(** ** Peak versus current bin *)

(** C1 fails on the code: a bin of 16000 gives 16000 / FFT_SCALE = HEIGHT,
    so the rise from 0 is not committed and the peak stays at 0. *)
Lemma peak_never_below_bin_fails : ~ peak_never_below_bin.
Proof.
  intro H.
  assert (F : 16000 <= 0); [| lia].
  apply (H (replicate 256 16000) peakBuffer_init 0 16000 0);
    try reflexivity.
  change (Z.quot SAMPLES 4) with 64. lia.
Qed.

(** C1, amended: the new peak is at least the bin value [cur] when
    [cur <= prev] or [cur / FFT_SCALE < HEIGHT]; when [cur > prev] and
    [cur / FFT_SCALE >= HEIGHT] the rise is not committed and the peak keeps
    [prev], below [cur]. *)
Theorem peak_ge_bin_unless_clamped approxBuffer peakBuffer i cur prev :
  length peakBuffer = Z.to_nat SAMPLES ->
  0 <= i < Z.quot SAMPLES 4 ->
  read approxBuffer i = Some cur -> read peakBuffer i = Some prev ->
  INT_MIN <= cur <= INT_MAX -> INT_MIN <= prev <= INT_MAX ->
  exists new,
    read (draw_spectrum approxBuffer peakBuffer).1 i = Some new /\
    (cur <= prev \/ Z.quot cur FFT_SCALE < HEIGHT -> cur <= new) /\
    (prev < cur -> HEIGHT <= Z.quot cur FFT_SCALE -> new = prev /\ new < cur).
Proof.
  intros Len Hi Rc Rp Hc Hp. exists (peak_update cur prev).
  split; [apply draw_spectrum_peak; assumption |].
  unfold peak_update. destruct (Z.ltb_spec prev cur) as [Rise | Fall].
  - destruct (Z.ltb_spec (Z.quot cur FFT_SCALE) HEIGHT) as [Ok | Clamp].
    + split; [intros _; lia | lia].
    + split; [lia | intros _ _; split; [reflexivity | exact Rise]].
  - split; [| lia]. intros _. apply peak_decay_between; lia.
Qed.

Lemma peak_ge_bin_unless_clamped_witness :
  exists new,
    read (draw_spectrum (replicate 256 700) (replicate 256 900)).1 5
    = Some new /\
    (700 <= 900 \/ Z.quot 700 FFT_SCALE < HEIGHT -> 700 <= new) /\
    (900 < 700 -> HEIGHT <= Z.quot 700 FFT_SCALE -> new = 900 /\ new < 700).
Proof.
  apply (peak_ge_bin_unless_clamped (replicate 256 700) (replicate 256 900)
           5 700 900); try reflexivity;
    change (Z.quot SAMPLES 4) with 64; unfold INT_MIN, INT_MAX; lia.
Defined.

(** ** Peak decay *)

(** C7: when the bin does not exceed the stored peak, the new peak is the
    filter value [prev * EXP_FILTER + cur * (1 - EXP_FILTER)] (up to
    rounding and the dropped fraction), with [EXP_FILTER] strictly between
    0 and 1; it is at most [prev] and at least [cur], so a peak over
    non-negative bins stays non-negative. *)
Theorem peak_decays_when_no_new_maximum approxBuffer peakBuffer i cur prev :
  length peakBuffer = Z.to_nat SAMPLES ->
  0 <= i < Z.quot SAMPLES 4 ->
  read approxBuffer i = Some cur -> read peakBuffer i = Some prev ->
  INT_MIN <= cur -> cur <= prev -> prev <= INT_MAX ->
  exists new,
    read (draw_spectrum approxBuffer peakBuffer).1 i = Some new /\
    new <= prev /\ cur <= new /\
    (0 < EXP_FILTER /\ EXP_FILTER < 1 /\
     let exact := inject_Z prev * EXP_FILTER
                  + inject_Z cur * (1 - EXP_FILTER) in
     exact - (5 # 4) < inject_Z new /\ inject_Z new < exact + (5 # 4))%Q.
Proof.
  intros Len Hi Rc Rp Hc Hcp Hp. exists (peak_update cur prev).
  split; [apply draw_spectrum_peak; assumption |].
  unfold peak_update. destruct (Z.ltb_spec prev cur) as [Rise | Fall]; [lia |].
  destruct (peak_decay_between cur prev Hc Hcp Hp) as [Lo Hi'].
  split; [exact Hi' |]. split; [exact Lo |].
  split; [apply Qlt_alt; vm_compute; reflexivity |].
  split; [apply Qlt_alt; vm_compute; reflexivity |].
  apply peak_decay_near; lia.
Qed.

Lemma peak_decays_when_no_new_maximum_witness :
  exists new,
    read (draw_spectrum (replicate 256 700) (replicate 256 900)).1 5
    = Some new /\
    new <= 900 /\ 700 <= new /\
    (0 < EXP_FILTER /\ EXP_FILTER < 1 /\
     let exact := inject_Z 900 * EXP_FILTER
                  + inject_Z 700 * (1 - EXP_FILTER) in
     exact - (5 # 4) < inject_Z new /\ inject_Z new < exact + (5 # 4))%Q.
Proof.
  apply (peak_decays_when_no_new_maximum (replicate 256 700)
           (replicate 256 900) 5 700 900); try reflexivity;
    change (Z.quot SAMPLES 4) with 64; unfold INT_MIN, INT_MAX; lia.
Defined.

(** ** The peak stays in the drawable range *)

Lemma peak_update_below approx peak :
  peak < 16000 -> peak_update approx peak < 16000.
Proof.
  intro Hp. unfold peak_update. destruct (Z.ltb_spec peak approx) as [Rise | Fall].
  - destruct (Z.ltb_spec (Z.quot approx FFT_SCALE) HEIGHT) as [Ok | Clamp];
      [apply quot_FFT_SCALE_lt, Ok | exact Hp].
  - apply Z.le_lt_trans with (peak_decay 15999 15999);
      [apply peak_decay_mono; lia | vm_compute; reflexivity].
Qed.

Lemma peaks_after_invariant frames :
  forall peakBuffer,
    length peakBuffer = Z.to_nat SAMPLES ->
    Forall (fun p => p < 16000) peakBuffer ->
    let final := foldl (fun peakBuffer approxBuffer =>
                          (draw_spectrum approxBuffer peakBuffer).1)
                       peakBuffer frames in
    length final = Z.to_nat SAMPLES /\ Forall (fun p => p < 16000) final.
Proof.
  induction frames as [| approxBuffer frames IH]; intros pk Len Inv.
  - split; assumption.
  - cbn [foldl]. apply IH.
    + apply (draw_spectrum_lookup approxBuffer pk Len).
    + apply draw_spectrum_below; [exact Len | | exact Inv].
      intros approx peak. apply peak_update_below.
Qed.

(** C8: from the zero-initialised buffer, after any run of frames every
    stored peak, divided by FFT_SCALE, is strictly below HEIGHT. *)
Theorem peak_stays_drawable frames i p :
  read (peaks_after frames) i = Some p -> Z.quot p FFT_SCALE < HEIGHT.
Proof.
  intro R. apply quot_FFT_SCALE_lt.
  destruct (peaks_after_invariant frames peakBuffer_init) as [_ Inv].
  - reflexivity.
  - apply Forall_replicate. lia.
  - unfold read in R. destruct (i <? 0); [discriminate |].
    apply (Forall_lookup_1 _ _ _ _ Inv R).
Qed.

Lemma peak_stays_drawable_witness :
  Z.quot 15679 FFT_SCALE < HEIGHT.
Proof.
  apply (peak_stays_drawable
           [replicate 256 15999; replicate 256 16000; replicate 256 0] 7 15679).
  vm_compute. reflexivity.
Defined.

(** ** Waterfall gain *)



(** ** Rendered heights *)

(** C6 fails on the code in waterfall mode: a bin of 10000 has the
    unclamped value 200, above HEIGHT, and is rendered as 127. *)
Lemma heights_clamped_to_HEIGHT_fails : ~ heights_clamped_to_HEIGHT.
Proof.
  intro H. destruct (H 0 10000 0) as (_ & _ & _ & W);
    [rewrite quarter_samples; lia | lia | lia |].
  assert (F : waterfall_height 0 10000 = HEIGHT)
    by (apply W; vm_compute; reflexivity).
  vm_compute in F. discriminate F.
Qed.

Lemma height_uint16 i v divisor : 0 <= height i v divisor < 2 ^ 16.
Proof. unfold height, double_to_uint16, to_uint16. apply Z.mod_pos_bound. lia. Qed.

Lemma spectrum_bar_hr i approx peak :
  bar_hr (spectrum_bar i approx peak) = Z.min (height i approx FFT_SCALE) HEIGHT.
Proof.
  cbv beta zeta iota delta [bar_hr spectrum_bar].
  destruct (Z.ltb_spec HEIGHT (height i approx FFT_SCALE)); lia.
Qed.

Lemma spectrum_bar_hp i approx peak :
  bar_hp (spectrum_bar i approx peak) = Z.min (height i peak FFT_SCALE) HEIGHT.
Proof.
  cbv beta zeta iota delta [bar_hp spectrum_bar].
  destruct (Z.ltb_spec HEIGHT (height i peak FFT_SCALE)); lia.
Qed.

(** C6, amended: every bar drawn in spectrum mode has both heights in
    [0, HEIGHT], each the 16-bit height value clamped to HEIGHT; in
    waterfall mode the height lies in [0, 127], below HEIGHT, and is the
    16-bit height value clamped to 127. *)
Theorem rendered_heights_bounded approxBuffer peakBuffer (i : nat) :
  length peakBuffer = Z.to_nat SAMPLES ->
  (i < Z.to_nat (Z.quot SAMPLES 4))%nat ->
  let approx := approxBuffer !!! i in
  let st := draw_spectrum approxBuffer peakBuffer in
  (exists b, st.2 !! i = Some b /\
     0 <= bar_hr b <= HEIGHT /\
     bar_hr b = Z.min (height (Z.of_nat i) approx FFT_SCALE) HEIGHT /\
     0 <= bar_hp b <= HEIGHT /\
     bar_hp b = Z.min (height (Z.of_nat i) (st.1 !!! i) FFT_SCALE) HEIGHT) /\
  0 <= waterfall_height (Z.of_nat i) approx <= 127 /\ 127 < HEIGHT /\
  waterfall_height (Z.of_nat i) approx
  = Z.min (height (Z.of_nat i) approx (Z.quot FFT_SCALE 2)) 127.
Proof.
  intros Len Hi approx st. rewrite quarter_samples, Nat2Z.id in Hi.
  destruct (draw_spectrum_lookup approxBuffer peakBuffer Len) as (_ & _ & H).
  fold st in H. destruct (H i) as [H1 H2]. specialize (H2 Hi).
  rewrite decide_True in H1 by exact Hi.
  split.
  - eexists. split; [exact H2 |].
    rewrite (list_lookup_total_correct _ _ _ H1). fold approx.
    generalize (peak_update approx (peakBuffer !!! i)). intro p.
    rewrite spectrum_bar_hr, spectrum_bar_hp.
    pose proof (height_uint16 (Z.of_nat i) approx FFT_SCALE) as Br.
    pose proof (height_uint16 (Z.of_nat i) p FFT_SCALE) as Bp.
    unfold HEIGHT. lia.
  - pose proof (height_uint16 (Z.of_nat i) approx (Z.quot FFT_SCALE 2)) as Bw.
    unfold waterfall_height, HEIGHT.
    destruct (Z.ltb_spec 127 (height (Z.of_nat i) approx (Z.quot FFT_SCALE 2)));
      lia.
Qed.

Lemma rendered_heights_bounded_witness :
  let approxBuffer := replicate 256 20000 in
  let approx := approxBuffer !!! 3%nat in
  let st := draw_spectrum approxBuffer peakBuffer_init in
  (exists b, st.2 !! 3%nat = Some b /\
     0 <= bar_hr b <= HEIGHT /\
     bar_hr b = Z.min (height (Z.of_nat 3) approx FFT_SCALE) HEIGHT /\
     0 <= bar_hp b <= HEIGHT /\
     bar_hp b = Z.min (height (Z.of_nat 3) (st.1 !!! 3%nat) FFT_SCALE) HEIGHT) /\
  0 <= waterfall_height (Z.of_nat 3) approx <= 127 /\ 127 < HEIGHT /\
  waterfall_height (Z.of_nat 3) approx
  = Z.min (height (Z.of_nat 3) approx (Z.quot FFT_SCALE 2)) 127.
Proof.
  apply (rendered_heights_bounded (replicate 256 20000) peakBuffer_init 3);
    [reflexivity | rewrite quarter_samples; lia].
Defined.

(** ** Waterfall scrolling *)

Lemma drawFastHLine_other_row spr x y w col (r : nat) :
  r <> Z.to_nat y -> drawFastHLine spr x y w col !! r = spr !! r.
Proof. intro NE. unfold drawFastHLine. apply list_lookup_alter_ne. auto. Qed.

Lemma waterfall_bins_keep_lower_rows approxBuffer bins :
  forall spr (r : nat),
    r <> 0%nat ->
    foldl (waterfall_bin approxBuffer) spr bins !! r = spr !! r.
Proof.
  induction bins as [| i bins IH]; intros spr r NZ; [reflexivity |].
  cbn [foldl]. rewrite IH by exact NZ. unfold waterfall_bin.
  apply drawFastHLine_other_row. exact NZ.
Qed.

Lemma scroll_down_lookup fill spr (r : nat) :
  (S r < length spr)%nat -> scroll_down fill spr !! S r = spr !! r.
Proof.
  intro H. destruct spr as [| row rest]; [simpl in H; lia |].
  unfold scroll_down. rewrite lookup_cons_ne_0 by lia.
  apply lookup_take_lt. simpl in *. lia.
Qed.




(** * Further properties *)

(** ** Checking a property on every value of a range *)

Lemma forallb_seqZ (f : Z -> bool) (n : Z) :
  forallb f (seqZ 0 n) = true -> forall y, 0 <= y < n -> f y = true.
Proof.
  intros H y Hy. rewrite forallb_forall in H. apply H.
  apply list_elem_of_In, elem_of_seqZ. lia.
Qed.

(** ** The colours of [rainbowColor] *)

Lemma rainbowColor_uint8 x : rainbowColor x = rainbowColor (x mod 2 ^ 8).
Proof.
  unfold rainbowColor. fold (to_uint8 x).
  replace (to_uint8 (to_uint8 x)) with (to_uint8 x); [reflexivity |].
  unfold to_uint8. rewrite Z.mod_mod by lia. reflexivity.
Qed.

(** X2: for every argument, reduced to 8 bits by the parameter, the colour
    unpacks to the channels of the hue wheel at [x mod 192]: red in bits
    11-15, green in bits 6-10, blue in bits 0-4; one channel is at the
    maximum 31 and one is 0. *)
Theorem rainbowColor_channels x :
  let y := x mod 2 ^ 8 in
  let colour := rainbowColor x in
  let '(r, g, b) := hue_channels (y mod 192) in
  red_of colour = r /\ green_of colour = g /\ blue_of colour = b /\
  colour = r * 2 ^ 11 + g * 2 ^ 6 + b /\
  Z.max r (Z.max g b) = 31 /\ Z.min r (Z.min g b) = 0.
Proof.
  cbv zeta. rewrite (rainbowColor_uint8 x).
  assert (Hy : 0 <= x mod 2 ^ 8 < 256) by (apply Z.mod_pos_bound; lia).
  generalize dependent (x mod 2 ^ 8). intros y Hy.
  assert (A : forallb channels_ok (seqZ 0 256) = true)
    by (vm_compute; reflexivity).
  pose proof (forallb_seqZ channels_ok 256 A y Hy) as C.
  unfold channels_ok in C. destruct (hue_channels (y mod 192)) as [[r g] b].
  rewrite !andb_true_iff, !Z.eqb_eq in C. tauto.
Qed.

(** X3: the hue wheel is continuous: the colours of two neighbouring 8-bit
    arguments differ by at most one step in one channel, also across the
    sector borders and where 191 is followed by the wrap to 0. *)
Theorem rainbowColor_continuous x :
  0 <= x < 255 -> colour_distance (rainbowColor x) (rainbowColor (x + 1)) <= 1.
Proof.
  intro Hx.
  assert (A : forallb (fun y => colour_distance (rainbowColor y)
                                  (rainbowColor (y + 1)) <=? 1)
                      (seqZ 0 255) = true) by (vm_compute; reflexivity).
  apply Z.leb_le. apply (forallb_seqZ _ 255 A x Hx).
Qed.

Lemma rainbowColor_continuous_witness :
  colour_distance (rainbowColor 191) (rainbowColor (191 + 1)) <= 1.
Proof. apply (rainbowColor_continuous 191). lia. Defined.

Lemma spectrum_bar_col i approx peak :
  bar_col (spectrum_bar i approx peak)
  = rainbowColor (127 + Z.min (Z.min (height i peak FFT_SCALE) HEIGHT) 96).
Proof.
  cbv beta zeta iota delta [bar_col spectrum_bar].
  destruct (Z.ltb_spec HEIGHT (height i peak FFT_SCALE));
    do 3 f_equal; lia.
Qed.

(** X4: the colour of the peak dot as a function of the clamped peak
    height: blue at 0, through violet to red at 64, then, the key passing
    191 and wrapping on the hue wheel, from red to yellow at 96 and above.
    The key [127 + min (hp, 96)] never leaves 8 bits. *)
Theorem peak_dot_colour i approx peak :
  let b := spectrum_bar i approx peak in
  0 <= bar_hp b <= HEIGHT /\
  127 <= 127 + Z.min (bar_hp b) 96 < 2 ^ 8 /\
  channels_of (bar_col b) = peak_dot_channels (bar_hp b).
Proof.
  cbv zeta.
  rewrite spectrum_bar_col, spectrum_bar_hp.
  pose proof (height_uint16 i peak FFT_SCALE) as Bp.
  generalize dependent (height i peak FFT_SCALE). intros h Bp.
  assert (Hm : 0 <= Z.min h HEIGHT < 161) by (unfold HEIGHT; lia).
  generalize dependent (Z.min h HEIGHT). intros hp Hm.
  split; [unfold HEIGHT; lia |]. split; [lia |].
  assert (A : forallb (fun hp =>
                match channels_of (rainbowColor (127 + Z.min hp 96)),
                      peak_dot_channels hp with
                | (r, g, b), (r', g', b') =>
                    (r =? r') && (g =? g') && (b =? b')
                end) (seqZ 0 161) = true) by (vm_compute; reflexivity).
  pose proof (forallb_seqZ _ 161 A hp Hm) as C. cbv beta in C.
  destruct (channels_of _) as [[r g] b].
  destruct (peak_dot_channels hp) as [[r' g'] b'].
  rewrite !andb_true_iff, !Z.eqb_eq in C. destruct C as [[-> ->] ->].
  reflexivity.
Qed.

(** X5: the colour of a waterfall pixel as a function of the clamped
    height: blue for 0, through cyan, green and yellow to red for the
    highest values; the key [128 - hr] lies in [1, 128] and never wraps. *)
Theorem waterfall_pixel_colour i v :
  let hr := waterfall_height i v in
  0 <= hr <= 127 /\ 1 <= 128 - hr <= 128 /\
  channels_of (rainbowColor (128 - hr)) = waterfall_channels hr.
Proof.
  cbv zeta.
  assert (Hr : 0 <= waterfall_height i v < 128).
  { unfold waterfall_height.
    pose proof (height_uint16 i v (Z.quot FFT_SCALE 2)) as B.
    destruct (Z.ltb_spec 127 (height i v (Z.quot FFT_SCALE 2))); lia. }
  generalize dependent (waterfall_height i v). intros hr Hr.
  split; [lia |]. split; [lia |].
  assert (A : forallb (fun hr =>
                match channels_of (rainbowColor (128 - hr)),
                      waterfall_channels hr with
                | (r, g, b), (r', g', b') =>
                    (r =? r') && (g =? g') && (b =? b')
                end) (seqZ 0 128) = true) by (vm_compute; reflexivity).
  pose proof (forallb_seqZ _ 128 A hr Hr) as C. cbv beta in C.
  destruct (channels_of _) as [[r g] b].
  destruct (waterfall_channels hr) as [[r' g'] b'].
  rewrite !andb_true_iff, !Z.eqb_eq in C. destruct C as [[-> ->] ->].
  reflexivity.
Qed.

(** ** Peak tracking over time *)

Section PeakDynamics.
Local Open Scope Q_scope.

(** The rounding error of the decay filter is below 2^-19. *)
Lemma decay_error_fine approx peak :
  (INT_MIN <= approx <= INT_MAX)%Z -> (INT_MIN <= peak <= INT_MAX)%Z ->
  let exact := inject_Z peak * EXP_FILTER + inject_Z approx * (1 - EXP_FILTER) in
  let d := fadd (fmul (of_int peak) EXP_FILTER)
                (fmul (of_int approx) (fsub 1 EXP_FILTER)) in
  exact - (1 # 524288) < d /\ d < exact + (1 # 524288).
Proof.
  unfold INT_MIN, INT_MAX. intros Ha Hp. destruct EXP_FILTER_range as [A0 A1].
  cbv zeta. rewrite EXP_FILTER_complement.
  rewrite (of_int_exact peak), (of_int_exact approx) by (unfold prec; lia).
  generalize dependent EXP_FILTER. intros a A0 A1. set (b := 1 - a).
  assert (B0 : 0 <= b) by (unfold b; lra).
  assert (B1 : b <= 1) by (unfold b; lra).
  assert (In31 : forall n, (- 2 ^ 31 <= n <= 2 ^ 31 - 1)%Z ->
            - (2147483648 # 1) <= inject_Z n /\ inject_Z n <= 2147483648 # 1).
  { intros n Hn. change (2147483648 # 1) with (inject_Z (2 ^ 31)).
    rewrite <- inject_Z_opp, <- !Zle_Qle. lia. }
  destruct (In31 peak Hp) as [P1 P2]. destruct (In31 approx Ha) as [Q1 Q2].
  set (P := inject_Z peak) in *. set (A := inject_Z approx) in *.
  assert (Bx : - (2147483648 # 1) <= P * a /\ P * a <= 2147483648 # 1)
    by (split; nra).
  assert (By : - (2147483648 # 1) <= A * b /\ A * b <= 2147483648 # 1)
    by (split; nra).
  assert (Grid : forall z, - (2147483648 # 1) <= z -> z <= 2147483648 # 1 ->
            Qabs (z / pow2 (-21)) <= inject_Z (2 ^ prec - 1)).
  { intros z Z1 Z2. rewrite (div_pow2_neg z 21), pow2_inject by lia.
    apply Qabs_Qle_condition.
    change (inject_Z (2 ^ 21)) with (2097152 # 1).
    change (inject_Z (2 ^ prec - 1)) with (9007199254740991 # 1).
    split; nra. }
  unfold fmul, fadd.
  destruct (fl_within_grid (P * a) (-21)) as [X1 X2]; [apply Grid; tauto |].
  destruct (fl_within_grid (A * b) (-21)) as [Y1 Y2]; [apply Grid; tauto |].
  generalize dependent (fl (P * a)). intros X X1 X2.
  generalize dependent (fl (A * b)). intros Y Y1 Y2.
  assert (P21 : pow2 (-21) == 1 # 2097152) by reflexivity.
  rewrite P21 in *.
  destruct (fl_within_grid (X + Y) (-20)) as [S1 S2].
  { rewrite (div_pow2_neg (X + Y) 20), pow2_inject by lia.
    apply Qabs_Qle_condition.
    change (inject_Z (2 ^ 20)) with (1048576 # 1).
    change (inject_Z (2 ^ prec - 1)) with (9007199254740991 # 1). lra. }
  assert (P20 : pow2 (-20) == 1 # 1048576) by reflexivity.
  rewrite P20 in *. lra.
Qed.

Lemma EXP_FILTER_gap : 1 # 64 <= 1 - EXP_FILTER.
Proof. apply Qle_bool_iff. vm_compute. reflexivity. Qed.

(** A peak above the bin comes down by at least one. *)
Lemma peak_decay_strict approx peak :
  (INT_MIN <= approx)%Z -> (approx < peak)%Z -> (1 <= peak <= INT_MAX)%Z ->
  (peak_decay approx peak < peak)%Z.
Proof.
  intros Ha Hap Hp. destruct EXP_FILTER_range as [A0 A1].
  pose proof EXP_FILTER_gap as G.
  destruct (decay_error_fine approx peak) as [_ U]; [lia | unfold INT_MIN; lia |].
  cbv zeta in U. unfold peak_decay, double_to_int.
  assert (L : inject_Z approx <= inject_Z peak - 1).
  { change 1 with (inject_Z 1). unfold Qminus.
    rewrite <- inject_Z_opp, <- inject_Z_plus, <- Zle_Qle. lia. }
  revert U. generalize (fadd (fmul (of_int peak) EXP_FILTER)
                             (fmul (of_int approx) (fsub 1 EXP_FILTER))).
  generalize dependent EXP_FILTER. intros a A0 A1 G d U.
  assert (T : (trunc d <= peak - 1)%Z); [| lia].
  apply trunc_nonneg_lt; [lia |].
  unfold Z.sub. rewrite inject_Z_plus. change (inject_Z (- (1))) with (- (1)).
  set (P := inject_Z peak) in *. set (A := inject_Z approx) in *.
  assert (A * (1 - a) <= (P - 1) * (1 - a)) by (apply Qmult_le_compat_r; lra).
  lra.
Qed.

End PeakDynamics.

Lemma peak_update_steady cur prev :
  0 <= cur -> cur <= prev -> prev <= INT_MAX ->
  cur <= peak_update cur prev <= Z.max cur (prev - 1).
Proof.
  intros Hc Hcp Hp. unfold peak_update.
  destruct (Z.ltb_spec prev cur) as [Rise | Fall]; [lia |].
  destruct (peak_decay_between cur prev) as [Lo Hi];
    [unfold INT_MIN; lia | lia | lia |].
  split; [exact Lo |].
  destruct (Z.eq_dec cur prev) as [E | NE]; [lia |].
  pose proof (peak_decay_strict cur prev). unfold INT_MIN in *. lia.
Qed.

Lemma peaks_from_lookup frames :
  forall peakBuffer (i : nat),
    length peakBuffer = Z.to_nat SAMPLES ->
    length (peaks_from peakBuffer frames) = Z.to_nat SAMPLES /\
    peaks_from peakBuffer frames !! i
    = (if decide (i < 64)%nat
       then Some (bin_peak i frames (peakBuffer !!! i))
       else peakBuffer !! i).
Proof.
  induction frames as [| approxBuffer frames IH]; intros pk i Len.
  - split; [exact Len |]. cbn [peaks_from bin_peak foldl].
    destruct (decide (i < 64)%nat); [| reflexivity].
    apply list_lookup_lookup_total_lt. rewrite Len. unfold SAMPLES. lia.
  - destruct (draw_spectrum_lookup approxBuffer pk Len) as (L & _ & H).
    cbv zeta in L, H. destruct (H i) as [H1 _].
    unfold peaks_from, bin_peak. cbn [foldl].
    fold (peaks_from (draw_spectrum approxBuffer pk).1 frames).
    destruct (IH (draw_spectrum approxBuffer pk).1 i L) as [L' E].
    split; [exact L' |]. rewrite E.
    destruct (decide (i < 64)%nat); [| exact H1].
    unfold bin_peak. rewrite (list_lookup_total_correct _ _ _ H1). reflexivity.
Qed.

(** X6: each of the first N/4 entries of [peakBuffer] follows the values
    of its own bin only, by one [peak_update] per frame; the entries from
    N/4 on are never written. *)
Theorem peak_bins_independent peakBuffer frames (i : nat) :
  length peakBuffer = Z.to_nat SAMPLES ->
  peaks_from peakBuffer frames !! i
  = (if decide (i < Z.to_nat (Z.quot SAMPLES 4))%nat
     then Some (bin_peak i frames (peakBuffer !!! i))
     else peakBuffer !! i).
Proof.
  intro Len. change (Z.to_nat (Z.quot SAMPLES 4)) with 64%nat.
  apply peaks_from_lookup, Len.
Qed.

Lemma peak_bins_independent_witness :
  peaks_from (replicate 256 900) [replicate 256 700; replicate 256 1000]
    !! 70%nat
  = (if decide (70 < Z.to_nat (Z.quot SAMPLES 4))%nat
     then Some (bin_peak 70 [replicate 256 700; replicate 256 1000]
                  (replicate 256 900 !!! 70%nat))
     else replicate 256 900 !! 70%nat).
Proof.
  apply (peak_bins_independent (replicate 256 900)
           [replicate 256 700; replicate 256 1000] 70).
  reflexivity.
Defined.

Lemma bin_peak_steady frames (i : nat) cur :
  Forall (fun approxBuffer => approxBuffer !! i = Some cur) frames ->
  forall prev,
    bin_peak i frames prev = Nat.iter (length frames) (peak_update cur) prev.
Proof.
  induction 1 as [| approxBuffer frames Hd Tl IH]; intro prev; [reflexivity |].
  unfold bin_peak in *. cbn [foldl length]. rewrite IH.
  rewrite (list_lookup_total_correct _ _ _ Hd).
  rewrite Nat.iter_succ_r. reflexivity.
Qed.

Lemma steady_iter cur (n : nat) prev :
  0 <= cur -> cur <= prev -> prev <= INT_MAX ->
  cur <= Nat.iter n (peak_update cur) prev <= Z.max cur (prev - Z.of_nat n).
Proof.
  intros Hc Hcp Hp. induction n as [| n IH]; [simpl; lia |].
  rewrite Nat.iter_succ.
  pose proof (peak_update_steady cur (Nat.iter n (peak_update cur) prev)).
  lia.
Qed.

(** X7: while a bin keeps a value [cur >= 0] at or below the stored peak
    [prev], the peak stays at or above [cur] and comes down by at least one
    per frame until it reaches [cur]: after [n] frames it is at most
    [max (cur, prev - n)], so it equals [cur] from frame [prev - cur] on. *)
Theorem peak_settles_on_steady_bin peakBuffer frames (i : nat) cur prev :
  length peakBuffer = Z.to_nat SAMPLES ->
  (i < Z.to_nat (Z.quot SAMPLES 4))%nat ->
  peakBuffer !! i = Some prev ->
  Forall (fun approxBuffer => approxBuffer !! i = Some cur) frames ->
  0 <= cur -> cur <= prev -> prev <= INT_MAX ->
  exists p,
    peaks_from peakBuffer frames !! i = Some p /\
    cur <= p <= Z.max cur (prev - Z.of_nat (length frames)) /\
    (prev - cur <= Z.of_nat (length frames) -> p = cur).
Proof.
  intros Len Hi Rp St Hc Hcp Hp.
  change (Z.to_nat (Z.quot SAMPLES 4)) with 64%nat in Hi.
  destruct (peaks_from_lookup frames peakBuffer i Len) as [_ E].
  rewrite decide_True in E by exact Hi.
  rewrite (list_lookup_total_correct _ _ _ Rp) in E.
  rewrite (bin_peak_steady frames i cur St) in E.
  eexists. split; [exact E |].
  pose proof (steady_iter cur (length frames) prev Hc Hcp Hp). lia.
Qed.

Lemma peak_settles_on_steady_bin_witness :
  exists p,
    peaks_from (replicate 256 900) (replicate 3 (replicate 256 898)) !! 5%nat
    = Some p /\
    898 <= p <= Z.max 898 (900 - Z.of_nat (length (replicate 3 (replicate 256 898)))) /\
    (900 - 898 <= Z.of_nat (length (replicate 3 (replicate 256 898))) -> p = 898).
Proof.
  apply (peak_settles_on_steady_bin (replicate 256 900)
           (replicate 3 (replicate 256 898)) 5 898 900);
    try reflexivity; try (unfold INT_MAX; lia).
  - vm_compute. lia.
  - repeat constructor.
Defined.

(** X8: a bin that keeps a value above the stored peak either lifts the
    peak to that value in the first frame, where it then stays
    ([cur / FFT_SCALE < HEIGHT]), or, being out of the drawable range,
    leaves the peak frozen at its old value for as long as it lasts: the
    peak then neither rises nor decays. *)
Theorem peak_under_steady_higher_bin peakBuffer frames (i : nat) cur prev :
  length peakBuffer = Z.to_nat SAMPLES ->
  (i < Z.to_nat (Z.quot SAMPLES 4))%nat ->
  peakBuffer !! i = Some prev ->
  Forall (fun approxBuffer => approxBuffer !! i = Some cur) frames ->
  frames <> [] -> prev < cur -> INT_MIN <= cur <= INT_MAX ->
  peaks_from peakBuffer frames !! i
  = Some (if Z.quot cur FFT_SCALE <? HEIGHT then cur else prev).
Proof.
  intros Len Hi Rp St NE Hpc Hc.
  change (Z.to_nat (Z.quot SAMPLES 4)) with 64%nat in Hi.
  destruct (peaks_from_lookup frames peakBuffer i Len) as [_ E].
  rewrite decide_True in E by exact Hi.
  rewrite (list_lookup_total_correct _ _ _ Rp) in E.
  rewrite (bin_peak_steady frames i cur St) in E. rewrite E. f_equal.
  destruct (length frames) as [| n] eqn:Ln;
    [destruct frames; [contradiction | discriminate] |].
  clear E Ln. destruct (Z.ltb_spec (Z.quot cur FFT_SCALE) HEIGHT) as [Ok | Over].
  - induction n as [| n IH].
    + simpl. unfold peak_update.
      destruct (Z.ltb_spec prev cur); [| lia].
      destruct (Z.ltb_spec (Z.quot cur FFT_SCALE) HEIGHT); [reflexivity | lia].
    + rewrite Nat.iter_succ, IH. unfold peak_update.
      rewrite Z.ltb_irrefl. apply peak_decay_fixed, Hc.
  - induction n as [| n IH].
    + simpl. unfold peak_update.
      destruct (Z.ltb_spec prev cur); [| lia].
      destruct (Z.ltb_spec (Z.quot cur FFT_SCALE) HEIGHT); [lia | reflexivity].
    + rewrite Nat.iter_succ, IH. unfold peak_update.
      destruct (Z.ltb_spec prev cur); [| lia].
      destruct (Z.ltb_spec (Z.quot cur FFT_SCALE) HEIGHT); [lia | reflexivity].
Qed.

Lemma peak_under_steady_higher_bin_witness :
  peaks_from (replicate 256 900) (replicate 3 (replicate 256 20000)) !! 5%nat
  = Some (if Z.quot 20000 FFT_SCALE <? HEIGHT then 20000 else 900).
Proof.
  apply (peak_under_steady_higher_bin (replicate 256 900)
           (replicate 3 (replicate 256 20000)) 5 20000 900);
    try reflexivity; try (unfold INT_MIN, INT_MAX; lia).
  - vm_compute. lia.
  - repeat constructor.
  - discriminate.
Defined.

(** ** Heights: the double computation against integer arithmetic *)

Section Heights.
Local Open Scope Q_scope.

Lemma fl_within x (k : Z) (B : Q) :
  (0 <= k)%Z -> - B <= x -> x <= B ->
  B * inject_Z (2 ^ k) <= inject_Z (2 ^ prec - 1) ->
  x - pow2 (- k) < fl x /\ fl x < x + pow2 (- k).
Proof.
  intros Hk Lo Hi Fit. apply fl_within_grid.
  rewrite (div_pow2_neg x k), pow2_inject by exact Hk.
  assert (P : 0 < inject_Z (2 ^ k)).
  { rewrite <- pow2_inject by exact Hk. apply pow2_pos. }
  apply Qabs_Qle_condition. generalize dependent (inject_Z (2 ^ k)).
  generalize (inject_Z (2 ^ prec - 1)). intros M P2 Fit P.
  split; nra.
Qed.

Lemma fdiv_mono_l x y c : 0 < c -> x <= y -> fdiv x c <= fdiv y c.
Proof.
  intros Hc H. unfold fdiv. apply fl_mono. unfold Qdiv.
  apply Qmult_le_compat_r; [exact H |]. apply Qlt_le_weak, Qinv_lt_0_compat, Hc.
Qed.

Lemma of_int_pos n : (0 < n)%Z -> 0 < of_int n.
Proof.
  intro H. apply Qlt_le_trans with (of_int 1); [reflexivity |].
  apply of_int_mono. lia.
Qed.

Lemma of_int_nonneg n : (0 <= n)%Z -> 0 <= of_int n.
Proof.
  intro H. apply Qle_trans with (of_int 0); [apply Qle_bool_iff; reflexivity |].
  apply of_int_mono, H.
Qed.

(** The boost factor [1 + i / 10.0]. *)
Lemma boost_mono i i' :
  (i <= i')%Z ->
  fadd 1 (fdiv (of_int i) 10) <= fadd 1 (fdiv (of_int i') 10).
Proof.
  intro H. apply fadd_mono; [apply Qle_refl |].
  apply fdiv_mono_l; [reflexivity | apply of_int_mono, H].
Qed.

Lemma boost_ge_1 i : (0 <= i)%Z -> 1 <= fadd 1 (fdiv (of_int i) 10).
Proof.
  intro H. apply Qle_trans with (fadd 1 (fdiv (of_int 0) 10));
    [apply Qle_bool_iff; vm_compute; reflexivity | apply boost_mono, H].
Qed.

(** The height value never falls when the bin index or a non-negative
    value rises. *)
Lemma height_value_mono i i' v v' divisor :
  (0 <= i <= i')%Z -> (0 <= v <= v')%Z -> (0 < divisor)%Z ->
  height_value i v divisor <= height_value i' v' divisor.
Proof.
  intros Hi Hv Hd. unfold height_value.
  apply fdiv_mono_l; [apply of_int_pos, Hd |].
  pose proof (boost_ge_1 i (proj1 Hi)) as B1.
  pose proof (boost_mono i i' (proj2 Hi)) as B2.
  pose proof (of_int_nonneg v (proj1 Hv)) as V1.
  pose proof (of_int_mono v v' (proj2 Hv)) as V2.
  unfold fmul. apply fl_mono.
  generalize dependent (fadd 1 (fdiv (of_int i) 10)).
  generalize (fadd 1 (fdiv (of_int i') 10)).
  generalize dependent (of_int v). generalize (of_int v').
  intros V' V V1 V2 b' b B1 B2. nra.
Qed.

Lemma height_value_nonneg i v divisor :
  (0 <= i)%Z -> (0 <= v)%Z -> (0 < divisor)%Z -> 0 <= height_value i v divisor.
Proof.
  intros Hi Hv Hd.
  apply Qle_trans with (height_value 0 0 divisor);
    [| apply height_value_mono; lia].
  assert (Z0 : of_int 0 == 0) by (apply fl_0; reflexivity).
  assert (M : fmul (fadd 1 (fdiv (of_int 0) 10)) (of_int 0) == 0).
  { apply fl_0. rewrite Z0. ring. }
  unfold height_value, fdiv at 1. rewrite fl_0; [apply Qle_refl |].
  rewrite M. unfold Qdiv. ring.
Qed.

(** The four roundings of the height value stay within 2^-24 of
    [(10 + i) * v / (10 * divisor)]. *)
Lemma height_value_error i v divisor :
  (0 <= i < 64)%Z -> (0 <= v < 2 ^ 16)%Z -> (10 <= divisor <= 1000)%Z ->
  let exact := (10 + inject_Z i) * inject_Z v / (10 * inject_Z divisor) in
  exact - (1 # 16777216) < height_value i v divisor /\
  height_value i v divisor < exact + (1 # 16777216).
Proof.
  intros Hi Hv Hd. cbv zeta. unfold height_value, fdiv, fmul, fadd.
  rewrite (of_int_exact i), (of_int_exact v), (of_int_exact divisor)
    by (unfold prec; lia).
  assert (I : 0 <= inject_Z i /\ inject_Z i <= 63).
  { change 0 with (inject_Z 0). change 63 with (inject_Z 63).
    rewrite <- !Zle_Qle. lia. }
  assert (V : 0 <= inject_Z v /\ inject_Z v <= 65535).
  { change 0 with (inject_Z 0). change 65535 with (inject_Z 65535).
    rewrite <- !Zle_Qle. lia. }
  assert (D : 10 <= inject_Z divisor /\ inject_Z divisor <= 1000).
  { change 10 with (inject_Z 10). change 1000 with (inject_Z 1000).
    rewrite <- !Zle_Qle. lia. }
  generalize dependent (inject_Z i). intros I [I0 I1].
  generalize dependent (inject_Z v). intros V [V0 V1].
  generalize dependent (inject_Z divisor). intros D [D0 D1].
  assert (P40 : pow2 (- 40) == 1 # 1099511627776) by reflexivity.
  assert (P30 : pow2 (- 30) == 1 # 1073741824) by reflexivity.
  (* i / 10.0 *)
  change (I / 10) with (I * (1 # 10)).
  destruct (fl_within (I * (1 # 10)) 40 8) as [A1 A2];
    [lia | lra | lra | apply Qle_bool_iff; reflexivity |].
  rewrite P40 in A1, A2.
  generalize dependent (fl (I * (1 # 10))). intros a A1 A2.
  (* 1 + ... *)
  destruct (fl_within (1 + a) 40 8) as [B1 B2];
    [lia | lra | lra | apply Qle_bool_iff; reflexivity |].
  rewrite P40 in B1, B2.
  generalize dependent (fl (1 + a)). intros b B1 B2.
  assert (Bb : (10 + I) * (1 # 10) - (1 # 549755813888) < b /\
               b < (10 + I) * (1 # 10) + (1 # 549755813888)) by (split; lra).
  clear a A1 A2 B1 B2. destruct Bb as [B1 B2].
  (* ... * v *)
  assert (BV : ((10 + I) * (1 # 10) - (1 # 549755813888)) * V <= b * V /\
               b * V <= ((10 + I) * (1 # 10) + (1 # 549755813888)) * V)
    by (split; apply Qmult_le_compat_r; lra).
  destruct BV as [BV1 BV2].
  assert (IV0 : 0 <= I * V) by nra.
  assert (IV1 : I * V <= 63 * 65535) by nra.
  destruct (fl_within (b * V) 30 524288) as [C1 C2];
    [lia | lra | lra | apply Qle_bool_iff; reflexivity |].
  rewrite P30 in C1, C2.
  generalize dependent (fl (b * V)). intros c C1 C2.
  set (X := (10 + I) * V * (1 # 10)).
  assert (Cc : X - (1 # 4194304) < c /\ c < X + (1 # 4194304))
    by (unfold X; split; lra).
  assert (X0 : 0 <= X /\ X <= 500000) by (unfold X; split; lra).
  clear C1 C2 BV1 BV2 B1 B2 b. destruct Cc as [C1 C2]. destruct X0 as [X0 X1].
  (* ... / divisor *)
  assert (E : (10 + I) * V / (10 * D) == X / D) by (unfold X; field; lra).
  rewrite E. clear E. clearbody X. clear I I0 I1 V V0 V1 IV0 IV1.
  assert (R0 : 0 < / D) by (apply Qinv_lt_0_compat; lra).
  assert (R1 : / D <= 1 # 10).
  { apply Qle_shift_inv_r; lra. }
  unfold Qdiv. generalize dependent (/ D). intros r R0 R1.
  assert (CR1 : (X - (1 # 4194304)) * r <= c * r)
    by (apply Qmult_le_compat_r; lra).
  assert (CR2 : c * r <= (X + (1 # 4194304)) * r)
    by (apply Qmult_le_compat_r; lra).
  assert (XR0 : 0 <= X * r) by nra.
  assert (XR1 : X * r <= 50000) by nra.
  destruct (fl_within (c * r) 30 65536) as [E1 E2];
    [lia | lra | lra | apply Qle_bool_iff; reflexivity |].
  rewrite P30 in E1, E2.
  generalize dependent (fl (c * r)). intros e E1 E2.
  split; lra.
Qed.

End Heights.

Lemma height_formula i v divisor :
  0 <= i < 64 -> 0 <= v < 2 ^ 16 -> 10 <= divisor <= 1000 ->
  let exact := ((10 + i) * v) / (10 * divisor) in
  exact - 1 <= height i v divisor <= exact /\
  (((10 + i) * v) mod (10 * divisor) <> 0 -> height i v divisor = exact).
Proof.
  intros Hi Hv Hd. cbv zeta.
  destruct (height_value_error i v divisor Hi Hv Hd) as [Lo Up].
  assert (Nn : (0 <= height_value i v divisor)%Q)
    by (apply height_value_nonneg; lia).
  cbv zeta in Lo, Up. unfold height, double_to_uint16.
  set (N := (10 + i) * v). set (Dd := 10 * divisor).
  assert (HN : 0 <= N <= 73 * 65535) by (unfold N; nia).
  assert (HD : 100 <= Dd <= 10000) by (unfold Dd; lia).
  pose proof (Z.div_mod N Dd) as DM. pose proof (Z.mod_pos_bound N Dd) as MB.
  assert (Hq : 0 <= N / Dd < 2 ^ 16).
  { split; [apply Z.div_pos; lia |].
    apply Z.div_lt_upper_bound; lia. }
  set (q := N / Dd) in *. set (r := N mod Dd) in *.
  assert (EQ : ((10 + inject_Z i) * inject_Z v / (10 * inject_Z divisor)
                == inject_Z q + inject_Z r * / inject_Z Dd)%Q).
  { change 10%Q with (inject_Z 10).
    rewrite <- inject_Z_plus, <- !inject_Z_mult. fold N Dd.
    rewrite DM at 1 by lia. rewrite inject_Z_plus, inject_Z_mult.
    field. change 0%Q with (inject_Z 0). rewrite inject_Z_injective. lia. }
  rewrite EQ in Lo, Up. clear EQ.
  assert (R : (0 <= inject_Z r * / inject_Z Dd <= 1 - (1 # 10000))%Q /\
              (r <> 0 -> (1 # 10000 <= inject_Z r * / inject_Z Dd)%Q)).
  { clear Lo Up.
    assert (Dp : (100 <= inject_Z Dd)%Q)
      by (change 100%Q with (inject_Z 100); rewrite <- Zle_Qle; lia).
    assert (Du : (inject_Z Dd <= 10000)%Q)
      by (change 10000%Q with (inject_Z 10000); rewrite <- Zle_Qle; lia).
    assert (R0 : (0 <= inject_Z r)%Q)
      by (change 0%Q with (inject_Z 0); rewrite <- Zle_Qle; lia).
    assert (R1 : (inject_Z r <= inject_Z Dd - 1)%Q).
    { change 1%Q with (inject_Z 1). unfold Qminus.
      rewrite <- inject_Z_opp, <- inject_Z_plus, <- Zle_Qle. lia. }
    assert (R2 : r <> 0 -> (1 <= inject_Z r)%Q).
    { intro NZ. change 1%Q with (inject_Z 1). rewrite <- Zle_Qle. lia. }
    generalize dependent (inject_Z r). generalize dependent (inject_Z Dd).
    intros DQ Dp Du RQ R0 R1 R2. fold (RQ / DQ)%Q.
    split; [split |].
    - apply Qle_shift_div_l; lra.
    - apply Qle_shift_div_r; lra.
    - intro NZ. specialize (R2 NZ). apply Qle_shift_div_l; lra. }
  destruct R as [[T0 T1] T2].
  revert Lo Up T0 T1 T2. generalize (inject_Z r * / inject_Z Dd)%Q.
  revert Nn. generalize (height_value i v divisor).
  intros hv Nn t Lo Up T0 T1 T2.
  assert (U : trunc hv <= q)
    by (apply trunc_nonneg_lt; [lia | lra]).
  assert (L0 : 0 <= trunc hv)
    by (apply trunc_nonneg_ge; [lia | exact Nn]).
  rewrite to_uint16_small by lia.
  split.
  - split; [| exact U].
    destruct (Z.eq_dec q 0) as [Q0 | Q1]; [lia |].
    apply trunc_nonneg_ge; [lia |].
    unfold Z.sub. rewrite inject_Z_plus.
    change (inject_Z (- (1))) with (- (1))%Q. lra.
  - intro NZ. specialize (T2 NZ).
    assert (q <= trunc hv) by (apply trunc_nonneg_ge; [lia | lra]). lia.
Qed.

(** X9: for a bin value in [0, 2^16) the height computed in double by
    lines 187, 188 and 227 is the integer quotient
    [(10 + i) * v / (10 * divisor)] or one less, and it is that quotient
    whenever the division leaves a remainder: the four roundings can only
    lose a pixel where the exact value is a whole number. *)
Theorem height_integer_formula i v divisor :
  0 <= i < Z.quot SAMPLES 4 -> 0 <= v < 2 ^ 16 ->
  divisor = FFT_SCALE \/ divisor = Z.quot FFT_SCALE 2 ->
  let exact := ((10 + i) * v) / (10 * divisor) in
  exact - 1 <= height i v divisor <= exact /\
  (((10 + i) * v) mod (10 * divisor) <> 0 -> height i v divisor = exact).
Proof.
  intros Hi Hv Hd. rewrite quarter_samples in Hi.
  apply height_formula; [lia | exact Hv |].
  destruct Hd as [-> | ->]; vm_compute; split; discriminate.
Qed.

Lemma height_integer_formula_witness :
  let exact := ((10 + 4) * 5500) / (10 * FFT_SCALE) in
  exact - 1 <= height 4 5500 FFT_SCALE <= exact /\
  (((10 + 4) * 5500) mod (10 * FFT_SCALE) <> 0 ->
   height 4 5500 FFT_SCALE = exact).
Proof.
  apply (height_integer_formula 4 5500 FFT_SCALE);
    [rewrite quarter_samples; lia | lia | left; reflexivity].
Defined.

(** The pixel is lost at bin 4 for the value 5500: the quotient is 77, the
    double computation gives 76. *)
Example height_rounds_below_quotient :
  height 4 5500 FFT_SCALE = 76 /\ ((10 + 4) * 5500) / (10 * FFT_SCALE) = 77.
Proof. split; vm_compute; reflexivity. Qed.

Lemma height_no_wrap i v divisor :
  0 <= i < 64 -> 0 <= v < 2 ^ 16 -> 10 <= divisor <= 1000 ->
  height i v divisor = trunc (height_value i v divisor).
Proof.
  intros Hi Hv Hd.
  assert (Nn : (0 <= height_value i v divisor)%Q)
    by (apply height_value_nonneg; lia).
  destruct (height_value_error i v divisor Hi Hv Hd) as [_ Up].
  cbv zeta in Up.
  assert (X : ((10 + inject_Z i) * inject_Z v / (10 * inject_Z divisor)
               <= 50000)%Q).
  { apply Qle_shift_div_r.
    - change 10%Q with (inject_Z 10). rewrite <- inject_Z_mult.
      change 0%Q with (inject_Z 0). rewrite <- Zlt_Qlt. lia.
    - change 10%Q with (inject_Z 10). change 50000%Q with (inject_Z 50000).
      rewrite <- inject_Z_plus, <- !inject_Z_mult, <- Zle_Qle. nia. }
  unfold height, double_to_uint16. revert Nn Up X.
  generalize (height_value i v divisor).
  generalize ((10 + inject_Z i) * inject_Z v / (10 * inject_Z divisor))%Q.
  intros exact hv Nn Up X. apply to_uint16_small. split.
  - apply trunc_nonneg_ge; [lia | exact Nn].
  - assert (trunc hv <= 50000); [| lia].
    apply trunc_nonneg_lt; [lia |]. change (inject_Z 50000) with 50000%Q. lra.
Qed.

(** X10: in the range of the 16-bit conversion a height never falls when
    the bin value rises, nor, for equal values, at a higher bin: the factor
    [1 + i / 10.0] lifts the higher bins. *)
Theorem height_monotone i i' v v' divisor :
  0 <= i <= i' -> i' < Z.quot SAMPLES 4 -> 0 <= v <= v' -> v' < 2 ^ 16 ->
  divisor = FFT_SCALE \/ divisor = Z.quot FFT_SCALE 2 ->
  height i v divisor <= height i' v' divisor.
Proof.
  intros Hi Hi' Hv Hv' Hd. rewrite quarter_samples in Hi'.
  assert (D : 10 <= divisor <= 1000)
    by (destruct Hd as [-> | ->]; vm_compute; split; discriminate).
  rewrite !height_no_wrap by lia.
  apply trunc_mono, height_value_mono; lia.
Qed.

Lemma height_monotone_witness : height 2 300 FFT_SCALE <= height 40 301 FFT_SCALE.
Proof.
  apply (height_monotone 2 40 300 301 FFT_SCALE);
    [lia | rewrite quarter_samples; lia | lia | lia | left; reflexivity].
Defined.

(** ** What spectrum mode draws *)

Lemma spectrum_bar_x i approx peak : bar_x (spectrum_bar i approx peak) = pw * i.
Proof. cbv beta zeta iota delta [bar_x spectrum_bar]. reflexivity. Qed.

Lemma peak_update_ge approx peak :
  0 <= approx < HEIGHT * FFT_SCALE -> peak < HEIGHT * FFT_SCALE ->
  approx <= peak_update approx peak < HEIGHT * FFT_SCALE.
Proof.
  change (HEIGHT * FFT_SCALE) with 16000. intros Ha Hp.
  split; [| apply peak_update_below, Hp].
  unfold peak_update. destruct (Z.ltb_spec peak approx) as [Rise | Fall].
  - destruct (Z.ltb_spec (Z.quot approx FFT_SCALE) HEIGHT) as [Ok | Over];
      [lia |].
    pose proof (proj2 (quot_FFT_SCALE_lt approx)). lia.
  - apply peak_decay_between; unfold INT_MIN, INT_MAX; lia.
Qed.

(** X11: for a bin value in the drawable range [0, HEIGHT * FFT_SCALE)
    and a stored peak below HEIGHT * FFT_SCALE, the peak dot is never drawn
    below the top of the amplitude bar of the same frame. *)
Theorem peak_dot_above_bar approxBuffer peakBuffer (i : nat) cur prev :
  length peakBuffer = Z.to_nat SAMPLES ->
  (i < Z.to_nat (Z.quot SAMPLES 4))%nat ->
  approxBuffer !! i = Some cur -> peakBuffer !! i = Some prev ->
  0 <= cur < HEIGHT * FFT_SCALE -> prev < HEIGHT * FFT_SCALE ->
  exists b,
    (draw_spectrum approxBuffer peakBuffer).2 !! i = Some b /\
    bar_hr b <= bar_hp b /\
    rect_y (dot_rect b) <= rect_y (amplitude_rect b).
Proof.
  intros Len Hi Rc Rp Hc Hp. rewrite quarter_samples, Nat2Z.id in Hi.
  destruct (draw_spectrum_lookup approxBuffer peakBuffer Len) as (_ & _ & H).
  destruct (H i) as [_ H2]. specialize (H2 Hi).
  eexists. split; [exact H2 |].
  rewrite (list_lookup_total_correct _ _ _ Rc).
  rewrite (list_lookup_total_correct _ _ _ Rp).
  pose proof (peak_update_ge cur prev Hc Hp) as B.
  revert B. generalize (peak_update cur prev). intros p B.
  change (HEIGHT * FFT_SCALE) with 16000 in *.
  assert (M : height (Z.of_nat i) cur FFT_SCALE <= height (Z.of_nat i) p FFT_SCALE).
  { rewrite !height_no_wrap by (unfold FFT_SCALE; lia).
    apply trunc_mono, height_value_mono; unfold FFT_SCALE; lia. }
  cbv beta zeta iota delta [dot_rect amplitude_rect rect_y].
  rewrite spectrum_bar_hr, spectrum_bar_hp. lia.
Qed.

Lemma peak_dot_above_bar_witness :
  exists b,
    (draw_spectrum (replicate 256 700) (replicate 256 900)).2 !! 5%nat = Some b /\
    bar_hr b <= bar_hp b /\
    rect_y (dot_rect b) <= rect_y (amplitude_rect b).
Proof.
  apply (peak_dot_above_bar (replicate 256 700) (replicate 256 900) 5 700 900);
    try reflexivity; vm_compute; try lia.
  split; [discriminate | reflexivity].
Defined.

(** X12: the two rectangles of every bin lie side by side in the sprite:
    bin [i] takes the columns [4 i .. 4 i + 2] and leaves column
    [4 i + 3] free, the last bin ends inside WIDTH; the amplitude bar
    stands on the bottom edge and stays inside the sprite; the peak dot,
    two rows high, starts inside [0, HEIGHT] and fits above the bottom
    edge exactly when the peak height is 2 or more. *)
Theorem spectrum_rects_inside approxBuffer peakBuffer (i : nat) :
  length peakBuffer = Z.to_nat SAMPLES ->
  (i < Z.to_nat (Z.quot SAMPLES 4))%nat ->
  exists b,
    (draw_spectrum approxBuffer peakBuffer).2 !! i = Some b /\
    let a := amplitude_rect b in
    let d := dot_rect b in
    rect_x a = 4 * Z.of_nat i /\ rect_x d = rect_x a /\
    rect_w a = 3 /\ rect_w d = 3 /\
    0 <= rect_x a /\ rect_x a + rect_w a < WIDTH /\
    0 <= rect_y a /\ rect_y a + rect_h a = HEIGHT /\
    0 <= rect_y d <= HEIGHT /\
    (rect_y d + rect_h d <= HEIGHT <-> 2 <= bar_hp b).
Proof.
  intros Len Hi. rewrite quarter_samples, Nat2Z.id in Hi.
  destruct (draw_spectrum_lookup approxBuffer peakBuffer Len) as (_ & _ & H).
  destruct (H i) as [_ H2]. specialize (H2 Hi).
  eexists. split; [exact H2 |].
  generalize (peak_update (approxBuffer !!! i) (peakBuffer !!! i)).
  generalize (approxBuffer !!! i). intros approx p.
  cbv beta zeta iota delta
    [dot_rect amplitude_rect rect_x rect_y rect_w rect_h].
  rewrite spectrum_bar_hr, spectrum_bar_hp, spectrum_bar_x, pw_value.
  pose proof (height_uint16 (Z.of_nat i) approx FFT_SCALE).
  pose proof (height_uint16 (Z.of_nat i) p FFT_SCALE).
  unfold WIDTH, HEIGHT. lia.
Qed.

Lemma spectrum_rects_inside_witness :
  exists b,
    (draw_spectrum (replicate 256 700) (replicate 256 900)).2 !! 63%nat = Some b /\
    let a := amplitude_rect b in
    let d := dot_rect b in
    rect_x a = 4 * Z.of_nat 63 /\ rect_x d = rect_x a /\
    rect_w a = 3 /\ rect_w d = 3 /\
    0 <= rect_x a /\ rect_x a + rect_w a < WIDTH /\
    0 <= rect_y a /\ rect_y a + rect_h a = HEIGHT /\
    0 <= rect_y d <= HEIGHT /\
    (rect_y d + rect_h d <= HEIGHT <-> 2 <= bar_hp b).
Proof.
  apply (spectrum_rects_inside (replicate 256 700) (replicate 256 900) 63);
    [reflexivity | vm_compute; lia].
Defined.

Lemma peak_update_nonneg approx peak :
  0 <= approx -> 0 <= peak < 16000 -> 0 <= peak_update approx peak < 16000.
Proof.
  intros Ha Hp. split; [| apply peak_update_below; lia].
  unfold peak_update. destruct (Z.ltb_spec peak approx) as [Rise | Fall].
  - destruct (Z.quot approx FFT_SCALE <? HEIGHT); lia.
  - pose proof (peak_decay_between approx peak). unfold INT_MIN, INT_MAX in *.
    lia.
Qed.

(** X13: when no bin of the first N/4 is ever negative, every entry of
    [peakBuffer] stays in [0, HEIGHT * FFT_SCALE) after any run of frames
    from startup. *)
Theorem peaks_stay_nonnegative frames (i : nat) p :
  Forall (fun approxBuffer =>
            forall j, (j < Z.to_nat (Z.quot SAMPLES 4))%nat ->
                      0 <= approxBuffer !!! j) frames ->
  peaks_after frames !! i = Some p -> 0 <= p < HEIGHT * FFT_SCALE.
Proof.
  change (HEIGHT * FFT_SCALE) with 16000.
  change (Z.to_nat (Z.quot SAMPLES 4)) with 64%nat.
  intros Pos R.
  assert (E : peaks_after frames = peaks_from peakBuffer_init frames)
    by reflexivity.
  rewrite E in R. clear E.
  destruct (peaks_from_lookup frames peakBuffer_init i) as [_ L];
    [reflexivity |].
  rewrite L in R. clear L.
  destruct (decide (i < 64)%nat) as [Lt | Ge].
  - injection R as <-.
    assert (P0 : 0 <= peakBuffer_init !!! i < 16000).
    { unfold peakBuffer_init. rewrite lookup_total_replicate_2;
        [lia | unfold SAMPLES; lia]. }
    revert P0. generalize (peakBuffer_init !!! i).
    induction Pos as [| approxBuffer frames Hd Tl IH]; intros prev P0;
      [exact P0 |].
    unfold bin_peak. cbn [foldl]. apply IH.
    apply peak_update_nonneg; [apply (Hd i), Lt | exact P0].
  - unfold peakBuffer_init in R. apply lookup_replicate in R. lia.
Qed.

Lemma peaks_stay_nonnegative_witness : 0 <= 686 < HEIGHT * FFT_SCALE.
Proof.
  apply (peaks_stay_nonnegative [replicate 256 700; replicate 256 0] 7 686).
  - repeat constructor; intros j Hj; vm_compute in Hj;
      rewrite lookup_total_replicate_2 by lia; lia.
  - vm_compute. reflexivity.
Defined.

(** ** One pass of [loop]: the trace *)

Lemma loop_spec Approx_FFT g :
  length (sampleBuffer g) = Z.to_nat SAMPLES ->
  length (streamBuffer g) = Z.to_nat SAMPLES ->
  length (approxBuffer g) = Z.to_nat SAMPLES ->
  exists stream approx peak bs s,
    scale_samples (sampleBuffer g) (streamBuffer g) (approxBuffer g)
    = (stream, approx) /\
    draw_spectrum (Approx_FFT approx SAMPLES SAMPLING_FREQUENCY) (peakBuffer g)
    = (peak, bs) /\
    length stream = Z.to_nat SAMPLES /\
    (forall i : nat, (i < Z.to_nat SAMPLES)%nat ->
       stream !! i = Some (scale_sample (sampleBuffer g !!! i))) /\
    trigger stream = Some s /\ 0 <= s <= 127 /\
    (s < 127 -> rising_at stream s) /\
    loop Approx_FFT g
    = Some (Buffers (sampleBuffer g) stream
              (Approx_FFT approx SAMPLES SAMPLING_FREQUENCY) peak,
            Drawing bs (trace_segment stream 0 s <$> seqZ 0 (Z.of_nat 64))).
Proof.
  intros Lr Ls La. unfold loop.
  destruct (scale_loop_lookup (sampleBuffer g) (Z.to_nat SAMPLES)
              (streamBuffer g) (approxBuffer g)) as (L1 & _ & H); [lia | lia |].
  rewrite Z2Nat.id in L1, H by (unfold SAMPLES; lia).
  fold (scale_samples (sampleBuffer g) (streamBuffer g) (approxBuffer g))
    in L1, H.
  destruct (scale_samples _ _ _) as [stream approx]. cbn [fst snd] in *.
  rewrite Ls in L1.
  destruct (trigger_loop_spec stream (Z.to_nat SAMPLES) L1 0)
    as (s & Es & Bs & _ & Hit);
    [change (Z.quot SAMPLES 2 - 1) with 127; unfold SAMPLES; lia .. |].
  change (Z.quot SAMPLES 2 - 1) with 127 in Bs, Hit.
  exists stream, approx.
  destruct (draw_spectrum _ _) as [peak bs].
  exists peak, bs, s.
  split; [reflexivity |]. split; [reflexivity |]. split; [exact L1 |].
  split.
  { intros i Hi. destruct (H i) as [H1 _].
    rewrite decide_True in H1 by exact Hi. exact H1. }
  fold (trigger stream) in Es.
  split; [exact Es |]. split; [exact Bs |]. split; [exact Hit |].
  rewrite Es. cbn [mbind option_bind].
  unfold draw_trace.
  rewrite (trace_loop_lines stream 64 L1); try reflexivity;
    rewrite ?pw_value; unfold WIDTH, SAMPLES; lia.
Qed.

Lemma loop_completes_witness :
  let g := Buffers (replicate 256 2048) (replicate 256 0) (replicate 256 0)
                   (replicate 256 0) in
  exists g' d,
    loop (fun approxBuffer _ _ => approxBuffer) g = Some (g', d) /\
    (streamBuffer g', approxBuffer g')
    = (let st := scale_samples (sampleBuffer g) (streamBuffer g)
                               (approxBuffer g) in
       (st.1, (fun approxBuffer _ _ => approxBuffer) st.2 SAMPLES
                SAMPLING_FREQUENCY)) /\
    length (trace d) = 64%nat.
Proof.
  intro g.
  apply (loop_completes (fun approxBuffer _ _ => approxBuffer) g);
    reflexivity.
Defined.

Lemma scale_sample_12bit raw :
  0 <= raw < 2 ^ 12 -> - 463 <= scale_sample raw <= 560.
Proof.
  intro H. rewrite scale_sample_int16 by lia.
  Z.to_euclidean_division_equations. lia.
Qed.

Lemma trace_y_12bit v : - 463 <= v <= 560 -> 0 <= trace_y v <= 146.
Proof.
  intro H. unfold trace_y, HEIGHT, TRACE_SCALE.
  Z.to_euclidean_division_equations. lia.
Qed.

(** X14: with 12-bit samples, as the ADC delivers them, the scaled window
    lies in [-463, 560] and the trace never leaves the sprite: the [k]-th
    of the N/4 lines runs from column [4 k] to column [4 k + 4], the last
    one ending at WIDTH, and both its ends lie in the rows [0, 146], above
    the bottom edge HEIGHT. *)
Theorem trace_stays_inside_sprite Approx_FFT g :
  length (sampleBuffer g) = Z.to_nat SAMPLES ->
  length (streamBuffer g) = Z.to_nat SAMPLES ->
  length (approxBuffer g) = Z.to_nat SAMPLES ->
  Forall (fun raw => 0 <= raw < 2 ^ 12) (sampleBuffer g) ->
  exists g' d,
    loop Approx_FFT g = Some (g', d) /\
    Forall (fun v => - 463 <= v <= 560) (streamBuffer g') /\
    length (trace d) = Z.to_nat (Z.quot SAMPLES 4) /\
    forall (k : nat) seg, trace d !! k = Some seg ->
      seg_x0 seg = 4 * Z.of_nat k /\ seg_x1 seg = seg_x0 seg + 4 /\
      0 <= seg_x0 seg /\ seg_x1 seg <= WIDTH /\
      0 <= seg_y0 seg <= 146 /\ 0 <= seg_y1 seg <= 146 /\ 146 < HEIGHT.
Proof.
  intros Lr Ls La Adc.
  destruct (loop_spec Approx_FFT g Lr Ls La)
    as (stream & approx & peak & bs & s & _ & _ & Len & Sc & _ & Bs & _ & E).
  rewrite E. eexists _, _. split; [reflexivity |]. cbn [streamBuffer trace].
  assert (Rng : Forall (fun v => - 463 <= v <= 560) stream).
  { apply Forall_lookup_2. intros i v Hv.
    assert (Hi : (i < Z.to_nat SAMPLES)%nat)
      by (rewrite <- Len; apply lookup_lt_is_Some; eexists; exact Hv).
    rewrite (Sc i Hi) in Hv. injection Hv as <-.
    apply scale_sample_12bit.
    apply (Forall_lookup_1 _ _ i _ Adc).
    apply list_lookup_lookup_total_lt. rewrite Lr. exact Hi. }
  split; [exact Rng |]. split.
  { rewrite length_fmap, length_seqZ. reflexivity. }
  intros k seg Hk. rewrite list_lookup_fmap in Hk.
  destruct (seqZ 0 (Z.of_nat 64) !! k) as [z |] eqn:Ez; [| discriminate].
  apply lookup_seqZ in Ez. destruct Ez as [-> Kb].
  injection Hk as <-.
  cbv beta zeta iota delta [trace_segment seg_x0 seg_x1 seg_y0 seg_y1].
  rewrite pw_value.
  assert (Y : forall j, 0 <= j < 256 -> 0 <= trace_y (stream !!! Z.to_nat j) <= 146).
  { intros j Hj. apply trace_y_12bit.
    apply (Forall_lookup_1 _ _ (Z.to_nat j) _ Rng).
    apply list_lookup_lookup_total_lt. rewrite Len. unfold SAMPLES. lia. }
  pose proof (Y (s + (0 + Z.of_nat k))) as Y0.
  pose proof (Y (s + (0 + Z.of_nat k) + 1)) as Y1.
  unfold WIDTH, HEIGHT. lia.
Qed.

Lemma trace_stays_inside_sprite_witness :
  let g := Buffers (replicate 256 4095) (replicate 256 0) (replicate 256 0)
                   (replicate 256 0) in
  exists g' d,
    loop (fun approxBuffer _ _ => approxBuffer) g = Some (g', d) /\
    Forall (fun v => - 463 <= v <= 560) (streamBuffer g') /\
    length (trace d) = Z.to_nat (Z.quot SAMPLES 4) /\
    forall (k : nat) seg, trace d !! k = Some seg ->
      seg_x0 seg = 4 * Z.of_nat k /\ seg_x1 seg = seg_x0 seg + 4 /\
      0 <= seg_x0 seg /\ seg_x1 seg <= WIDTH /\
      0 <= seg_y0 seg <= 146 /\ 0 <= seg_y1 seg <= 146 /\ 146 < HEIGHT.
Proof.
  intro g.
  apply (trace_stays_inside_sprite (fun approxBuffer _ _ => approxBuffer) g).
  - reflexivity.
  - reflexivity.
  - reflexivity.
  - apply Forall_replicate. lia.
Defined.

(** X15: when the trigger finds a rising edge, the trace starts on it: the
    first line leaves the left edge within three rows above the middle
    row HEIGHT / 2 and does not run downwards on the screen. *)
Theorem trace_starts_on_rising_edge Approx_FFT g g' d s :
  length (sampleBuffer g) = Z.to_nat SAMPLES ->
  length (streamBuffer g) = Z.to_nat SAMPLES ->
  length (approxBuffer g) = Z.to_nat SAMPLES ->
  loop Approx_FFT g = Some (g', d) ->
  trigger (streamBuffer g') = Some s -> s < Z.quot SAMPLES 2 - 1 ->
  exists seg,
    trace d !! 0%nat = Some seg /\
    seg_x0 seg = 0 /\
    Z.quot HEIGHT 2 - 3 <= seg_y0 seg <= Z.quot HEIGHT 2 /\
    seg_y1 seg <= seg_y0 seg.
Proof.
  intros Lr Ls La E Tr Hs. change (Z.quot SAMPLES 2 - 1) with 127 in Hs.
  destruct (loop_spec Approx_FFT g Lr Ls La)
    as (stream & approx & peak & bs & s' & _ & _ & Len & _ & Tr' & _ & Hit & E').
  rewrite E' in E. injection E as <- <-. cbn [streamBuffer trace] in *.
  rewrite Tr' in Tr. injection Tr as ->.
  destruct (Hit Hs) as (a & b & Ra & Rb & A0 & A1 & Up).
  eexists. split; [reflexivity |].
  cbv beta zeta iota delta [trace_segment seg_x0 seg_x1 seg_y0 seg_y1].
  unfold read in Ra, Rb.
  destruct (Z.ltb_spec s 0) as [Neg | _]; [discriminate |].
  destruct (Z.ltb_spec (s + 1) 0) as [Neg | _]; [discriminate |].
  replace (s + (Z.of_nat 0 + 0)) with s by lia.
  rewrite (list_lookup_total_correct _ _ _ Ra).
  rewrite (list_lookup_total_correct _ _ _ Rb).
  rewrite pw_value. unfold trace_y, HEIGHT, TRACE_SCALE in *.
  Z.to_euclidean_division_equations. lia.
Qed.

Lemma trace_starts_on_rising_edge_witness :
  let g := Buffers (replicate 100 1852 ++ [1872; 1900] ++ replicate 154 1852)
                   (replicate 256 0) (replicate 256 0) (replicate 256 0) in
  let st := scale_samples (sampleBuffer g) (streamBuffer g) (approxBuffer g) in
  let sp := draw_spectrum st.2 (peakBuffer g) in
  let d := Drawing sp.2 (trace_segment st.1 0 100 <$> seqZ 0 (Z.of_nat 64)) in
  exists seg,
    trace d !! 0%nat = Some seg /\
    seg_x0 seg = 0 /\
    Z.quot HEIGHT 2 - 3 <= seg_y0 seg <= Z.quot HEIGHT 2 /\
    seg_y1 seg <= seg_y0 seg.
Proof.
  intros g st sp d.
  apply (trace_starts_on_rising_edge (fun approxBuffer _ _ => approxBuffer) g
           (Buffers (sampleBuffer g) st.1 st.2 sp.1) d 100).
  - reflexivity.
  - reflexivity.
  - reflexivity.
  - vm_compute. reflexivity.
  - vm_compute. reflexivity.
  - vm_compute. reflexivity.
Defined.

(** ** Waterfall mode: the picture *)

Lemma waterfall_bins_top_row approxBuffer (n : nat) :
  (n <= 64)%nat ->
  forall spr row,
    spr !! 0%nat = Some row -> length row = Z.to_nat WIDTH ->
    exists row',
      foldl (waterfall_bin approxBuffer) spr (seqZ 0 (Z.of_nat n)) !! 0%nat
      = Some row' /\
      forall c : nat,
        row' !! c = (if decide (c < 4 * n)%nat
                     then Some (waterfall_colour approxBuffer c)
                     else row !! c).
Proof.
  intros Hn spr row R0 Len. induction n as [| n IH].
  - exists row. split; [exact R0 |]. intro c.
    rewrite decide_False by lia. reflexivity.
  - destruct IH as (rowN & EN & HN); [lia |].
    rewrite seqZ_snoc, foldl_app. cbn [foldl].
    unfold waterfall_bin at 1, drawFastHLine.
    change (Z.to_nat 0) with 0%nat.
    rewrite list_lookup_alter_eq, EN. cbn [fmap option_fmap option_map].
    eexists. split; [reflexivity |]. intro c.
    rewrite list_lookup_imap, HN, pw_value.
    destruct (decide (c < 4 * n)%nat) as [Old | New].
    + rewrite decide_True by lia. cbn [fmap option_fmap option_map].
      destruct (Z.leb_spec (4 * Z.of_nat n) (Z.of_nat c)); [lia |].
      reflexivity.
    + destruct (decide (c < 4 * S n)%nat) as [In | Out].
      * assert (Some_c : is_Some (row !! c))
          by (apply lookup_lt_is_Some; rewrite Len; unfold WIDTH; lia).
        destruct Some_c as [old Ec]. rewrite Ec.
        cbn [fmap option_fmap option_map].
        destruct (Z.leb_spec (4 * Z.of_nat n) (Z.of_nat c)); [| lia].
        destruct (Z.ltb_spec (Z.of_nat c) (4 * Z.of_nat n + 4)); [| lia].
        cbn [andb]. unfold waterfall_colour. rewrite pw_value.
        replace (Z.quot (Z.of_nat c) 4) with (Z.of_nat n)
          by (Z.to_euclidean_division_equations; lia).
        reflexivity.
      * destruct (row !! c) as [old |]; [| reflexivity].
        cbn [fmap option_fmap option_map].
        destruct (Z.leb_spec (4 * Z.of_nat n) (Z.of_nat c)); [| lia].
        destruct (Z.ltb_spec (Z.of_nat c) (4 * Z.of_nat n + 4)); [lia |].
        reflexivity.
Qed.

Lemma waterfall_bins_length approxBuffer bins :
  forall spr,
    length (foldl (waterfall_bin approxBuffer) spr bins) = length spr.
Proof.
  induction bins as [| i bins IH]; intro spr; [reflexivity |].
  cbn [foldl]. rewrite IH. unfold waterfall_bin, drawFastHLine.
  apply length_alter.
Qed.

Lemma scroll_down_length fill spr : length (scroll_down fill spr) = length spr.
Proof.
  destruct spr as [| row rest]; [reflexivity |].
  unfold scroll_down. cbn [length]. rewrite length_take. cbn [length]. lia.
Qed.

Lemma draw_waterfall_rows approxBuffer spr :
  length spr = Z.to_nat HEIGHT ->
  Forall (fun row => length row = Z.to_nat WIDTH) spr ->
  length (draw_waterfall approxBuffer spr) = Z.to_nat HEIGHT /\
  draw_waterfall approxBuffer spr !! 0%nat = Some (waterfall_row approxBuffer) /\
  forall r : nat, (S r < Z.to_nat HEIGHT)%nat ->
    draw_waterfall approxBuffer spr !! S r = spr !! r.
Proof.
  intros Len Rows. split; [| split].
  - unfold draw_waterfall. rewrite waterfall_bins_length, scroll_down_length.
    exact Len.
  - unfold draw_waterfall. rewrite quarter_samples.
    destruct spr as [| row rest]; [discriminate Len |].
    apply Forall_cons in Rows. destruct Rows as [Lrow _].
    destruct (waterfall_bins_top_row approxBuffer 64 (Nat.le_refl 64)
                (scroll_down TFT_BLACK (row :: rest))
                (replicate (length row) TFT_BLACK))
      as (row' & E & H); [reflexivity | rewrite length_replicate; exact Lrow |].
    rewrite E. f_equal. apply list_eq. intro c. rewrite (H c).
    unfold waterfall_row. rewrite list_lookup_fmap.
    change (Z.to_nat WIDTH) with 256%nat. rewrite Lrow.
    change (Z.to_nat WIDTH) with 256%nat.
    destruct (decide (c < 4 * 64)%nat) as [In | Out].
    + rewrite lookup_seq_lt by lia. reflexivity.
    + rewrite lookup_seq_ge by lia.
      apply lookup_replicate_None. lia.
  - intros r Hr. unfold draw_waterfall.
    rewrite waterfall_bins_keep_lower_rows by lia.
    apply scroll_down_lookup. lia.
Qed.

Lemma draw_waterfall_well_formed approxBuffer spr :
  length spr = Z.to_nat HEIGHT ->
  Forall (fun row => length row = Z.to_nat WIDTH) spr ->
  Forall (fun row => length row = Z.to_nat WIDTH)
         (draw_waterfall approxBuffer spr).
Proof.
  intros Len Rows.
  destruct (draw_waterfall_rows approxBuffer spr Len Rows) as (L & R0 & Rs).
  apply Forall_lookup_2. intros r row Hr.
  destruct r as [| r].
  - rewrite R0 in Hr. injection Hr as <-. unfold waterfall_row.
    rewrite length_fmap. apply length_seq.
  - assert (B : (S r < Z.to_nat HEIGHT)%nat)
      by (rewrite <- L; apply lookup_lt_is_Some; eexists; exact Hr).
    rewrite (Rs r B) in Hr. apply (Forall_lookup_1 _ _ _ _ Rows Hr).
Qed.

(** X16: in waterfall mode the N/4 lines of a frame fill the whole top
    row: every one of the WIDTH columns takes the colour of its bin
    [c / pw], nothing of the scrolled-in row stays visible, and the sprite
    keeps its HEIGHT rows of WIDTH pixels (with the sprite operations
    [scroll] and [drawFastHLine] as modelled). *)
Theorem waterfall_top_row approxBuffer spr :
  length spr = Z.to_nat HEIGHT ->
  Forall (fun row => length row = Z.to_nat WIDTH) spr ->
  draw_waterfall approxBuffer spr !! 0%nat = Some (waterfall_row approxBuffer) /\
  length (draw_waterfall approxBuffer spr) = Z.to_nat HEIGHT /\
  Forall (fun row => length row = Z.to_nat WIDTH)
         (draw_waterfall approxBuffer spr).
Proof.
  intros Len Rows.
  destruct (draw_waterfall_rows approxBuffer spr Len Rows) as (L & R0 & _).
  split; [exact R0 |]. split; [exact L |].
  apply draw_waterfall_well_formed; assumption.
Qed.

Lemma waterfall_top_row_witness :
  draw_waterfall (replicate 256 1000) sprite_init !! 0%nat
  = Some (waterfall_row (replicate 256 1000)) /\
  length (draw_waterfall (replicate 256 1000) sprite_init) = Z.to_nat HEIGHT /\
  Forall (fun row => length row = Z.to_nat WIDTH)
         (draw_waterfall (replicate 256 1000) sprite_init).
Proof.
  apply (waterfall_top_row (replicate 256 1000) sprite_init).
  - reflexivity.
  - apply Forall_replicate. reflexivity.
Defined.

(** X17: after any run of waterfall frames from the black sprite, the
    sprite still has HEIGHT rows of WIDTH pixels and row [r] shows the
    frame drawn [r] frames ago, the newest frame on top; rows further down
    than the number of frames drawn are still black (with the sprite
    operations [scroll] and [drawFastHLine] as modelled). *)
Theorem waterfall_shows_history frames :
  length (waterfall_after frames) = Z.to_nat HEIGHT /\
  Forall (fun row => length row = Z.to_nat WIDTH) (waterfall_after frames) /\
  forall r : nat, (r < Z.to_nat HEIGHT)%nat ->
    waterfall_after frames !! r
    = Some (match rev frames !! r with
            | Some approxBuffer => waterfall_row approxBuffer
            | None => black_row
            end).
Proof.
  induction frames as [| approxBuffer frames IH] using rev_ind.
  - split; [reflexivity |]. split; [apply Forall_replicate; reflexivity |].
    intros r Hr. cbn [rev lookup list_lookup].
    unfold waterfall_after. cbn [foldl]. unfold sprite_init.
    rewrite lookup_replicate_2 by exact Hr. reflexivity.
  - destruct IH as (Len & Rows & H).
    unfold waterfall_after in *. rewrite foldl_app. cbn [foldl].
    destruct (draw_waterfall_rows approxBuffer _ Len Rows) as (L & R0 & Rs).
    split; [exact L |].
    split; [apply draw_waterfall_well_formed; assumption |].
    intros r Hr. rewrite rev_app_distr. cbn [rev app].
    destruct r as [| r].
    + rewrite R0. reflexivity.
    + rewrite (Rs r Hr). cbn [lookup list_lookup]. apply H. lia.
Qed.

Lemma waterfall_shows_history_witness :
  waterfall_after [replicate 256 1000; replicate 256 0] !! 1%nat
  = Some (match rev [replicate 256 1000; replicate 256 0] !! 1%nat with
          | Some approxBuffer => waterfall_row approxBuffer
          | None => black_row
          end).
Proof.
  apply (waterfall_shows_history [replicate 256 1000; replicate 256 0]).
  vm_compute. lia.
Defined.

(** ** The frame counter *)

Lemma fps_step_counts now st :
  0 <= counter st < 2 ^ 16 -> 1 < frames_to_refresh (counter st) ->
  exists st',
    fps_step now st = (st', None) /\
    startMillis st' = startMillis st /\
    0 <= counter st' < 2 ^ 16 /\
    (counter st' + frames_to_refresh (counter st')) mod 2 ^ 16
    = (counter st + frames_to_refresh (counter st)) mod 2 ^ 16 /\
    frames_to_refresh (counter st') = frames_to_refresh (counter st) - 1.
Proof.
  destruct st as [c t]. cbn [counter startMillis]. intros Hc Hg.
  unfold fps_step, frames_to_refresh, interval, to_uint16 in *.
  cbn [counter startMillis].
  change (2 ^ 16 - 2 ^ 16 mod 100) with 65500 in *.
  change (2 ^ 16) with 65536 in *.
  assert (B : c + 1 < 65536 /\ Z.rem (c + 1) 100 <> 0 /\
              (c + 1 <? 65500) = (c <? 65500)).
  { destruct (Z.ltb_spec c 65500); destruct (Z.ltb_spec (c + 1) 65500);
      (split; [| split]); try reflexivity;
      Z.to_euclidean_division_equations; lia. }
  destruct B as (B1 & NZ & Same).
  rewrite (Z.mod_small (c + 1) 65536) by lia.
  destruct (Z.eqb_spec (Z.rem (c + 1) 100) 0) as [Z0 | _]; [contradiction |].
  eexists. split; [reflexivity |]. cbn [counter startMillis].
  split; [reflexivity |]. split; [lia |]. rewrite Same.
  destruct (Z.ltb_spec c 65500);
    (split; [f_equal |]); Z.to_euclidean_division_equations; lia.
Qed.

Lemma fps_step_refreshes now st :
  0 <= counter st < 2 ^ 16 -> frames_to_refresh (counter st) = 1 ->
  fps_step now st
  = (FpsState ((counter st + 1) mod 2 ^ 16) now, Some (now - startMillis st)).
Proof.
  destruct st as [c t]. cbn [counter startMillis]. intros Hc Hg.
  unfold fps_step, frames_to_refresh, interval, to_uint16 in *.
  cbn [counter startMillis].
  change (2 ^ 16 - 2 ^ 16 mod 100) with 65500 in *.
  change (2 ^ 16) with 65536 in *.
  assert (Z0 : Z.rem ((c + 1) mod 65536) 100 = 0).
  { destruct (Z.ltb_spec c 65500);
      Z.to_euclidean_division_equations; lia. }
  rewrite Z0. reflexivity.
Qed.

Lemma frames_to_refresh_pos c : 0 <= c < 2 ^ 16 -> 1 <= frames_to_refresh c.
Proof.
  intro Hc. unfold frames_to_refresh, interval.
  change (2 ^ 16 - 2 ^ 16 mod 100) with 65500.
  destruct (Z.ltb_spec c 65500); Z.to_euclidean_division_equations; lia.
Qed.

Lemma fps_run_to_refresh clock :
  forall frame st now,
    0 <= counter st < 2 ^ 16 ->
    Z.of_nat (length clock) = frames_to_refresh (counter st) - 1 ->
    fps_run (clock ++ [now]) frame st
    = (FpsState ((counter st + frames_to_refresh (counter st)) mod 2 ^ 16) now,
       [(frame + frames_to_refresh (counter st) - 1, now - startMillis st)]).
Proof.
  induction clock as [| t clock IH]; intros frame st now Hc Hg.
  - cbn [length] in Hg. cbn [app fps_run].
    rewrite fps_step_refreshes by lia.
    replace (frames_to_refresh (counter st)) with 1 by lia.
    f_equal. f_equal. f_equal. lia.
  - cbn [length] in Hg. cbn [app fps_run].
    destruct (fps_step_counts t st Hc) as (st' & E & T & Hc' & Fin & Gap);
      [lia |].
    rewrite E. rewrite (IH (frame + 1) st' now Hc') by lia.
    rewrite Fin, T, Gap. f_equal. f_equal. f_equal. lia.
Qed.

(** X18: from a counter value [c] the rate is refreshed next after exactly
    [interval - c mod interval] frames, and not before, except across the
    wrap of the 16-bit counter: from 65500 on the next refresh comes when
    the counter wraps to 0, after 65536 - c frames, so the refresh that
    follows the one at 65500 comes 36 frames later and not [interval].  The
    time handed to the rate computation is the time since [startMillis],
    and the timer restarts at the refresh. *)
Theorem fps_refresh_after_gap clock st now :
  0 <= counter st < 2 ^ 16 ->
  Z.of_nat (length clock) = frames_to_refresh (counter st) - 1 ->
  fps_run (clock ++ [now]) 1 st
  = (FpsState ((counter st + frames_to_refresh (counter st)) mod 2 ^ 16) now,
     [(frames_to_refresh (counter st), now - startMillis st)]) /\
  1 <= frames_to_refresh (counter st) <= interval /\
  (frames_to_refresh (counter st) = interval <->
   counter st mod interval = 0 /\ counter st < 2 ^ 16 - 2 ^ 16 mod interval).
Proof.
  intros Hc Hg. split.
  - rewrite (fps_run_to_refresh clock 1 st now Hc Hg).
    f_equal. f_equal. f_equal. lia.
  - clear Hg. unfold frames_to_refresh, interval.
    change (2 ^ 16 - 2 ^ 16 mod 100) with 65500.
    change (2 ^ 16) with 65536 in *.
    destruct (Z.ltb_spec (counter st) 65500);
      Z.to_euclidean_division_equations; lia.
Qed.

Lemma fps_refresh_after_gap_witness :
  fps_run (seqZ 1001 35 ++ [1036]) 1 (FpsState 65500 1000)
  = (FpsState ((65500 + frames_to_refresh 65500) mod 2 ^ 16) 1036,
     [(frames_to_refresh 65500, 1036 - 1000)]) /\
  1 <= frames_to_refresh 65500 <= interval /\
  (frames_to_refresh 65500 = interval <->
   65500 mod interval = 0 /\ 65500 < 2 ^ 16 - 2 ^ 16 mod interval).
Proof.
  apply (fps_refresh_after_gap (seqZ 1001 35) (FpsState 65500 1000) 1036).
  - vm_compute. split; [discriminate | reflexivity].
  - vm_compute. reflexivity.
Defined.

(** The gap across the wrap: 36 frames. *)
Example frames_to_refresh_at_wrap :
  frames_to_refresh 65500 = 36 /\ frames_to_refresh 0 = interval.
Proof. split; reflexivity. Qed.

(** ** The decay filter against integer arithmetic *)

Section DecayFormula.
Local Open Scope Q_scope.

Lemma EXP_FILTER_near :
  (98 # 100) - (1 # 18014398509481984) <= EXP_FILTER /\
  EXP_FILTER <= (98 # 100) + (1 # 18014398509481984).
Proof. split; apply Qle_bool_iff; vm_compute; reflexivity. Qed.

(** The double value of the filter stays within 2^-18 of
    [(98 * peak + 2 * approx) / 100]. *)
Lemma decay_value_error approx peak :
  (0 <= approx <= peak)%Z -> (peak <= INT_MAX)%Z ->
  let exact := inject_Z (98 * peak + 2 * approx) * (1 # 100) in
  let d := fadd (fmul (of_int peak) EXP_FILTER)
                (fmul (of_int approx) (fsub 1 EXP_FILTER)) in
  exact - (1 # 262144) < d /\ d < exact + (1 # 262144).
Proof.
  intros Ha Hp. cbv zeta.
  destruct (decay_error_fine approx peak) as [Lo Up];
    [unfold INT_MIN, INT_MAX in *; lia .. |].
  cbv zeta in Lo, Up. destruct EXP_FILTER_near as [N1 N2].
  revert Lo Up.
  generalize (fadd (fmul (of_int peak) EXP_FILTER)
                   (fmul (of_int approx) (fsub 1 EXP_FILTER))).
  generalize dependent EXP_FILTER. intros a N1 N2 d Lo Up.
  rewrite inject_Z_plus, !inject_Z_mult.
  change (inject_Z 98) with 98. change (inject_Z 2) with 2.
  assert (G : 0 <= inject_Z peak - inject_Z approx /\
              inject_Z peak - inject_Z approx <= 2147483648).
  { unfold Qminus. rewrite <- inject_Z_opp, <- inject_Z_plus.
    change 0 with (inject_Z 0). change 2147483648 with (inject_Z (2 ^ 31)).
    rewrite <- !Zle_Qle. unfold INT_MAX in Hp. lia. }
  generalize dependent (inject_Z peak). intros P Lo Up.
  generalize dependent (inject_Z approx). intros A Lo Up [G0 G1].
  set (e := a - (98 # 100)) in *.
  assert (E1 : e * (P - A) <= (1 # 18014398509481984) * (P - A))
    by (apply Qmult_le_compat_r; unfold e; lra).
  assert (E2 : - (1 # 18014398509481984) * (P - A) <= e * (P - A))
    by (apply Qmult_le_compat_r; unfold e; lra).
  assert (Ea : P * a + A * (1 - a)
               == (98 * P + 2 * A) * (1 # 100) + e * (P - A))
    by (unfold e; ring).
  rewrite Ea in Lo, Up. revert Lo Up E1 E2. generalize (e * (P - A)).
  intros t Lo Up E1 E2. split; lra.
Qed.

End DecayFormula.

(** X19: while the bin is at or below the stored peak (both non-negative),
    the new peak of lines 181-184 is the integer quotient
    [(98 * peak + 2 * bin) / 100] or one less, and it is that quotient
    whenever the division leaves a remainder. *)
Theorem peak_decay_integer_formula cur prev :
  0 <= cur <= prev -> prev <= INT_MAX ->
  let exact := (98 * prev + 2 * cur) / 100 in
  exact - 1 <= peak_update cur prev <= exact /\
  ((98 * prev + 2 * cur) mod 100 <> 0 -> peak_update cur prev = exact).
Proof.
  intros Hc Hp. cbv zeta.
  assert (U : peak_update cur prev = peak_decay cur prev).
  { unfold peak_update. destruct (Z.ltb_spec prev cur); [lia | reflexivity]. }
  rewrite U. clear U.
  destruct (peak_decay_between cur prev) as [Ge _];
    [unfold INT_MIN; lia | lia | lia |].
  pose proof (decay_value_error cur prev Hc Hp) as D. cbv zeta in D.
  assert (T : peak_decay cur prev
              = trunc (fadd (fmul (of_int prev) EXP_FILTER)
                            (fmul (of_int cur) (fsub 1 EXP_FILTER))))
    by reflexivity.
  rewrite T in *. clear T. revert D Ge.
  generalize (fadd (fmul (of_int prev) EXP_FILTER)
                   (fmul (of_int cur) (fsub 1 EXP_FILTER))).
  intros d [Lo Up] Ge.
  pose proof (Z.div_mod (98 * prev + 2 * cur) 100) as DM.
  pose proof (Z.mod_pos_bound (98 * prev + 2 * cur) 100) as MB.
  assert (Hq : 0 <= (98 * prev + 2 * cur) / 100) by (apply Z.div_pos; lia).
  revert DM MB Hq.
  generalize ((98 * prev + 2 * cur) / 100) ((98 * prev + 2 * cur) mod 100).
  intros q r DM MB Hq.
  assert (EQ : (inject_Z (98 * prev + 2 * cur) * (1 # 100)
                == inject_Z q + inject_Z r * (1 # 100))%Q).
  { rewrite DM by lia. rewrite inject_Z_plus, inject_Z_mult.
    change (inject_Z 100) with 100%Q. ring. }
  rewrite EQ in Lo, Up. clear EQ.
  assert (R : (0 <= inject_Z r <= 99)%Q /\ (r <> 0 -> (1 <= inject_Z r)%Q)).
  { change 0%Q with (inject_Z 0). change 99%Q with (inject_Z 99).
    change 1%Q with (inject_Z 1). rewrite <- !Zle_Qle. lia. }
  destruct R as [[R0 R1] R2].
  revert Lo Up R0 R1 R2. generalize (inject_Z r).
  intros t Lo Up R0 R1 R2.
  assert (Le : trunc d <= q) by (apply trunc_nonneg_lt; [lia | lra]).
  split.
  - split; [| exact Le].
    destruct (Z.eq_dec q 0) as [Q0 | Q1]; [lia |].
    apply trunc_nonneg_ge; [lia |].
    unfold Z.sub. rewrite inject_Z_plus.
    change (inject_Z (- (1))) with (- (1))%Q. lra.
  - intro NZ. specialize (R2 NZ).
    assert (q <= trunc d) by (apply trunc_nonneg_ge; [lia | lra]). lia.
Qed.

Lemma peak_decay_integer_formula_witness :
  let exact := (98 * 56 + 2 * 6) / 100 in
  exact - 1 <= peak_update 6 56 <= exact /\
  ((98 * 56 + 2 * 6) mod 100 <> 0 -> peak_update 6 56 = exact).
Proof.
  apply (peak_decay_integer_formula 6 56); unfold INT_MAX; lia.
Defined.

(** The unit is lost for the bin 6 under the peak 56: the quotient is 55,
    the double computation gives 54. *)
Example peak_decay_rounds_below_quotient :
  peak_update 6 56 = 54 /\ (98 * 56 + 2 * 6) / 100 = 55.
Proof. split; vm_compute; reflexivity. Qed.

(** ** The part of the window that reaches the trace *)

Lemma read_take (n : nat) s1 s2 j :
  take n s1 = take n s2 -> 0 <= j < Z.of_nat n -> read s1 j = read s2 j.
Proof.
  intros E Hj. unfold read. destruct (Z.ltb_spec j 0); [lia |].
  rewrite <- (lookup_take_lt s1 n) by lia.
  rewrite <- (lookup_take_lt s2 n) by lia.
  rewrite E. reflexivity.
Qed.

Lemma trigger_loop_ext s1 s2 fuel :
  (forall j, 0 <= j <= 127 -> read s1 j = read s2 j) ->
  forall startSample,
    0 <= startSample <= 127 ->
    trigger_loop fuel s1 startSample = trigger_loop fuel s2 startSample.
Proof.
  intro Same. induction fuel as [| fuel IH]; intros s0 Hs; [reflexivity |].
  cbn [trigger_loop]. change (Z.quot SAMPLES 2 - 1) with 127.
  destruct (Z.ltb_spec s0 127) as [Lt | Ge]; [| reflexivity].
  rewrite (Same s0), (Same (s0 + 1)) by lia.
  rewrite to_uint16_small by lia. rewrite (IH (s0 + 1)) by lia.
  reflexivity.
Qed.

(** X20: the trigger looks at the first half of the scaled window only,
    and the trace ends at most N/4 samples after the trigger: two windows
    that agree on their first 3 N / 4 samples give the same trigger and
    the same trace, so the last quarter of the window is never shown. *)
Theorem trace_ignores_last_quarter s1 s2 :
  length s1 = Z.to_nat SAMPLES -> length s2 = Z.to_nat SAMPLES ->
  take (Z.to_nat (Z.quot (3 * SAMPLES) 4)) s1
  = take (Z.to_nat (Z.quot (3 * SAMPLES) 4)) s2 ->
  exists s lines,
    trigger s1 = Some s /\ trigger s2 = Some s /\
    draw_trace s1 s = Some lines /\ draw_trace s2 s = Some lines.
Proof.
  intros L1 L2 E. change (Z.to_nat (Z.quot (3 * SAMPLES) 4)) with 192%nat in E.
  destruct (trigger_loop_spec s1 (Z.to_nat SAMPLES) L1 0)
    as (s & Es & Bs & _);
    [change (Z.quot SAMPLES 2 - 1) with 127; unfold SAMPLES; lia .. |].
  change (Z.quot SAMPLES 2 - 1) with 127 in Bs.
  exists s, (trace_segment s1 0 s <$> seqZ 0 (Z.of_nat 64)).
  fold (trigger s1) in Es. split; [exact Es |]. split.
  { unfold trigger in *. rewrite <- Es. symmetry.
    apply trigger_loop_ext; [| lia].
    intros j Hj. apply (read_take 192 s1 s2 j E). lia. }
  unfold draw_trace.
  rewrite (trace_loop_lines s1 64 L1), (trace_loop_lines s2 64 L2);
    try reflexivity; rewrite ?pw_value; unfold WIDTH, SAMPLES; try lia.
  split; [reflexivity |]. cbn [app]. f_equal.
  apply list_fmap_ext. intros i k Hk.
  apply lookup_seqZ in Hk. destruct Hk as [-> Hi].
  assert (T : forall j, 0 <= j < 192 -> s2 !!! Z.to_nat j = s1 !!! Z.to_nat j).
  { intros j Hj. rewrite !list_lookup_total_alt.
    pose proof (read_take 192 s1 s2 j E ltac:(lia)) as R. unfold read in R.
    destruct (Z.ltb_spec j 0); [lia |]. rewrite R. reflexivity. }
  unfold trace_segment. rewrite !T by lia. reflexivity.
Qed.

Lemma trace_ignores_last_quarter_witness :
  exists s lines,
    trigger (replicate 192 5 ++ replicate 64 0) = Some s /\
    trigger (replicate 192 5 ++ replicate 64 90) = Some s /\
    draw_trace (replicate 192 5 ++ replicate 64 0) s = Some lines /\
    draw_trace (replicate 192 5 ++ replicate 64 90) s = Some lines.
Proof.
  apply (trace_ignores_last_quarter (replicate 192 5 ++ replicate 64 0)
           (replicate 192 5 ++ replicate 64 90));
    reflexivity.
Defined.
